(** * Quint Whiteboard: the declaration-to-source generator and the canvas store

    A shallow embedding of [src/model/spec.ts] (module [Spec]) and of the pure
    parts of [src/model/store.ts] (module [Store]), with the properties the
    specification states about them.

    Modelling conventions.
    - A JavaScript string is a [string]: a sequence of code units below 256
      (the Latin-1 range).  On that range the white space of [trim], of
      [trimStart] and of the regular expression class [\s] is the set
      {9, 10, 11, 12, 13, 32, 160}.
    - A JavaScript number that holds a pixel coordinate or a size is a [Z];
      array indices and lengths are [nat] or [Z] as the code uses them.  The
      sources compute coordinates with IEEE doubles.  On integers below 2^53
      the sums, differences, minima, maxima and comparisons of doubles are
      those of [Z]; on other doubles a sum is rounded, so that grouping a
      sum differently can change its last bit.  The statements about
      coordinates are therefore written with the grouping of the source
      ([x + (w + 10)] where the source adds the padded width): they give the
      number the code computes, or compare numbers that the code computes
      with the same grouping; none of them regroups a sum.
    - An optional field ([role?], [pure?], [parentId?], [measured?], [style?])
      is an [option]; JavaScript truthiness is written out where the code
      relies on it. *)

From Stdlib Require Import ZArith Ascii String List Permutation Sorted Lia Bool.
From stdpp Require Import base list strings gmap.

Local Open Scope Z_scope.

(** ** JavaScript string primitives used by the sources *)

Module Str.

Definition LF : ascii := "010"%char.
Definition DQ : ascii := "034"%char.
Definition nl : string := String LF "".
Definition dq : string := String DQ "".

(** White space and line terminators of ECMAScript among code units < 256. *)
Definition isWhiteSpace (c : ascii) : bool :=
  match N_of_ascii c with
  | 9%N | 10%N | 11%N | 12%N | 13%N | 32%N | 160%N => true
  | _ => false
  end.

(** [a || b] on strings: the empty string is falsy. *)
Definition orElse (a b : string) : string :=
  if String.eqb a "" then b else a.

Definition truthy (a : string) : bool := negb (String.eqb a "").

Fixpoint trimStart (s : string) : string :=
  match s with
  | EmptyString => EmptyString
  | String c r => if isWhiteSpace c then trimStart r else s
  end.

Fixpoint trimEnd (s : string) : string :=
  match s with
  | EmptyString => EmptyString
  | String c r =>
      let r' := trimEnd r in
      if isWhiteSpace c && String.eqb r' "" then EmptyString else String c r'
  end.

Definition trim (s : string) : string := trimEnd (trimStart s).

(** [s.split(sep)] for a one-character separator: never the empty list. *)
Fixpoint split (sep : ascii) (s : string) : list string :=
  match s with
  | EmptyString => [EmptyString]
  | String c r =>
      if Ascii.eqb c sep then EmptyString :: split sep r
      else match split sep r with
           | h :: t => String c h :: t
           | [] => [String c EmptyString]
           end
  end.

(** [l.join(sep)] *)
Definition join (sep : string) (l : list string) : string := String.concat sep l.

(** [s.includes(c)] for a one-character needle. *)
Fixpoint includes (c : ascii) (s : string) : bool :=
  match s with
  | EmptyString => false
  | String c' r => Ascii.eqb c' c || includes c r
  end.

Fixpoint startsWith (p s : string) : bool :=
  match p with
  | EmptyString => true
  | String a p' =>
      match s with
      | EmptyString => false
      | String b s' => Ascii.eqb a b && startsWith p' s'
      end
  end.

Fixpoint endsWith (suf s : string) : bool :=
  String.eqb s suf ||
  match s with
  | EmptyString => false
  | String _ r => endsWith suf r
  end.

(** [toLowerCase] on code units < 256: A-Z, and the Latin-1 capitals
    192..222 except the multiplication sign 215. *)
Definition lowerChar (c : ascii) : ascii :=
  let n := N_of_ascii c in
  if ((65 <=? n) && (n <=? 90))%N then ascii_of_N (n + 32)
  else if ((192 <=? n) && (n <=? 222) && negb (n =? 215))%N then ascii_of_N (n + 32)
  else c.

Fixpoint toLowerCase (s : string) : string :=
  match s with
  | EmptyString => EmptyString
  | String c r => String (lowerChar c) (toLowerCase r)
  end.

(** The character at index [n], when there is one. *)
Definition charAt (n : nat) (s : string) : option ascii := String.get n s.

End Str.

(** ** The insertion-ordered [Map] with string keys

  A JavaScript [Map] iterates in the order in which keys were first set, and
  setting an existing key keeps its place. *)

Module OMap.

Definition t (V : Type) : Type := list (string * V).

Definition get {V} (m : t V) (k : string) : option V :=
  match List.find (fun e => String.eqb (fst e) k) m with
  | Some e => Some (snd e)
  | None => None
  end.

Definition has {V} (m : t V) (k : string) : bool :=
  existsb (fun e => String.eqb (fst e) k) m.

Fixpoint set {V} (m : t V) (k : string) (v : V) : t V :=
  match m with
  | [] => [(k, v)]
  | (k', v') :: r => if String.eqb k' k then (k, v) :: r else (k', v') :: set r k v
  end.

End OMap.

(** ** spec.ts: declarations and code generation *)

Module Spec.
Import Str.

Inductive DeclKind := KVar | KConst | KVal | KDef | KAction | KType | KAssume.

Inductive Role := RInit | RStep | RInvariant.

Record VisualDeclaration := mkDecl {
  id : string;
  kind : DeclKind;
  name : string;
  type : string;
  params : string;
  body : string;
  role : option Role;
  pure : option bool
}.

Definition kind_eqb (a b : DeclKind) : bool :=
  match a, b with
  | KVar, KVar | KConst, KConst | KVal, KVal | KDef, KDef
  | KAction, KAction | KType, KType | KAssume, KAssume => true
  | _, _ => false
  end.

Definition role_is (r : Role) (o : option Role) : bool :=
  match o, r with
  | Some RInit, RInit | Some RStep, RStep | Some RInvariant, RInvariant => true
  | _, _ => false
  end.

(** The keyword a kind is written with (the string value of [d.kind]). *)
Definition kindStr (k : DeclKind) : string :=
  match k with
  | KVar => "var" | KConst => "const" | KVal => "val" | KDef => "def"
  | KAction => "action" | KType => "type" | KAssume => "assume"
  end.

(** [d.pure] in a boolean context. *)
Definition isPure (d : VisualDeclaration) : bool :=
  match pure d with Some true => true | _ => false end.

Definition indentLines (text indent : string) : string :=
  join nl (map (fun l => indent +:+ l) (split LF text)).

(** [/^\s*(nondet|val)\s/.test(l)]: after all leading white space comes one
    of the two keywords and then one white-space character. *)
Definition followedByWs (kw rest : string) : bool :=
  startsWith kw rest &&
  match charAt (String.length kw) rest with
  | Some c => isWhiteSpace c
  | None => false
  end.

Definition bindingLine (l : string) : bool :=
  let r := trimStart l in
  followedByWs "nondet" r || followedByWs "val" r.

Definition hasBindings (body : string) : bool :=
  existsb bindingLine (split LF body).

Definition alreadyWrapped (body : string) : bool :=
  let trimmed := trimStart body in
  startsWith "all " trimmed || startsWith "any " trimmed.

Definition clauseLine (l : string) : string :=
  let clean := if endsWith "," l then l else l +:+ "," in
  "    " +:+ clean.

Definition clauses (body : string) : string :=
  join nl (map clauseLine (List.filter truthy (map trim (split LF body)))).

Definition declToQuint (d : VisualDeclaration) : string :=
  let name := orElse (name d) "_unnamed" in
  match kind d with
  | KVar | KConst =>
      "  " +:+ kindStr (kind d) +:+ " " +:+ name +:+ ": " +:+ orElse (type d) "int"
  | KVal =>
      let pureVal := if isPure d then "pure " else "" in
      "  " +:+ pureVal +:+ "val " +:+ name +:+
      (if truthy (type d) then ": " +:+ type d else "") +:+
      " = " +:+ orElse (body d) "???"
  | KDef | KAction =>
      let pureDef := if isPure d && kind_eqb (kind d) KDef then "pure " else "" in
      let params := if truthy (params d) then "(" +:+ params d +:+ ")" else "" in
      let ret := if truthy (type d) then ": " +:+ type d else "" in
      let body := orElse (body d) "???" in
      if includes LF body then
        if kind_eqb (kind d) KAction && negb (hasBindings body)
           && negb (alreadyWrapped body) then
          "  action " +:+ name +:+ params +:+ ret +:+ " = all {" +:+ nl +:+
          clauses body +:+ nl +:+ "  }"
        else
          "  " +:+ pureDef +:+ kindStr (kind d) +:+ " " +:+ name +:+ params +:+ ret +:+
          " = {" +:+ nl +:+ indentLines body "    " +:+ nl +:+ "  }"
      else
        "  " +:+ pureDef +:+ kindStr (kind d) +:+ " " +:+ name +:+ params +:+ ret +:+
        " = " +:+ body
  | KType => "  type " +:+ name +:+ " = " +:+ orElse (body d) "int"
  | KAssume => "  assume " +:+ name +:+ " = " +:+ orElse (body d) "true"
  end.

(** Sort order for declaration kinds in generated code. *)
Definition KIND_ORDER (k : DeclKind) : Z :=
  match k with
  | KType => 0 | KConst => 1 | KVar => 2 | KVal => 3
  | KDef => 4 | KAction => 5 | KAssume => 6
  end.

(** [Array.prototype.sort] with a comparator: the language requires the sort
    to be stable, and for a consistent comparator every stable sort returns
    the same array.  The model is the stable insertion sort. *)
Section Sort.
Context {A : Type} (cmp : A -> A -> Z).

Fixpoint insertSorted (x : A) (l : list A) : list A :=
  match l with
  | [] => [x]
  | y :: l' => if cmp x y <=? 0 then x :: l else y :: insertSorted x l'
  end.

Definition sort (l : list A) : list A := foldr insertSorted [] l.
End Sort.

(** [p.split(':')[0].trim()] and the rest of [parseParamNames]. *)
Definition parseParamNames (params : string) : list string :=
  if negb (truthy (trim params)) then []
  else List.filter truthy
         (map (fun p => trim (hd EmptyString (split ":" p))) (split "," params)).

(** One iteration of the inner loop: [const [name, type] = part.split(':').map(trim)]. *)
Definition collectPart (seen : OMap.t string) (part : string) : OMap.t string :=
  let pieces := map trim (split ":" part) in
  let name := hd EmptyString pieces in
  let type := nth_error pieces 1 in
  if truthy name && negb (OMap.has seen name) then
    OMap.set seen name (match type with
                       | Some t => orElse t "int"
                       | None => "int"
                       end)
  else seen.

Definition collectAction (seen : OMap.t string) (a : VisualDeclaration) : OMap.t string :=
  if negb (truthy (trim (params a))) then seen
  else fold_left collectPart (split "," (params a)) seen.

Definition collectUniqueParams (actions : list VisualDeclaration) : list (string * string) :=
  fold_left collectAction actions [].

(** Pick a sensible nondet range for a Quint type. *)
Definition nondetRange (type : string) : string :=
  let t := toLowerCase type in
  if String.eqb t "bool" then "Set(true, false)"
  else if String.eqb t "str" then
    "Set(" +:+ dq +:+ "a" +:+ dq +:+ ", " +:+ dq +:+ "b" +:+ dq +:+ ", "
           +:+ dq +:+ "c" +:+ dq +:+ ")"
  else "1.to(100)".

Definition isAction (d : VisualDeclaration) : bool := kind_eqb (kind d) KAction.

Definition initActions (decls : list VisualDeclaration) : list VisualDeclaration :=
  List.filter (fun d => role_is RInit (role d) && isAction d) decls.

Definition stepActions (decls : list VisualDeclaration) : list VisualDeclaration :=
  List.filter (fun d => role_is RStep (role d) && isAction d) decls.

Definition hasExplicit (nm : string) (decls : list VisualDeclaration) : bool :=
  existsb (fun d => String.eqb (name d) nm && isAction d) decls.

(** [acts.length > 1 || (acts.length === 1 && acts[0].name !== nm)] *)
Definition needsCombined (nm : string) (acts : list VisualDeclaration) : bool :=
  match acts with
  | [] => false
  | [a] => negb (String.eqb (name a) nm)
  | _ :: _ :: _ => true
  end.

Definition needsInit (decls : list VisualDeclaration) : bool :=
  negb (hasExplicit "init" decls) && needsCombined "init" (initActions decls).

Definition needsStep (decls : list VisualDeclaration) : bool :=
  negb (hasExplicit "step" decls) && needsCombined "step" (stepActions decls).

(** The first [if (needsInit)] block: what it pushes on [extra]. *)
Definition initExtra (decls : list VisualDeclaration) : list string :=
  if needsInit decls then
    let acts := initActions decls in
    let calls := join ("," +:+ nl) (map (fun a => "    " +:+ name a) acts) in
    match acts with
    | [a] => ["  action init = " +:+ name a]
    | _ => ["  action init = all {" +:+ nl +:+ calls +:+ "," +:+ nl +:+ "  }"]
    end
  else [].

Definition stepCall (a : VisualDeclaration) : string :=
  let args := join ", " (parseParamNames (params a)) in
  "    " +:+ name a +:+ (if truthy args then "(" +:+ args +:+ ")" else "").

Definition stepBinding (p : string * string) : string :=
  "    nondet " +:+ fst p +:+ " = " +:+ nondetRange (snd p) +:+ ".oneOf()".

(** The [if (needsStep)] block. *)
Definition stepExtra (decls : list VisualDeclaration) : list string :=
  if needsStep decls then
    let acts := stepActions decls in
    let ps := collectUniqueParams acts in
    let calls := join ("," +:+ nl) (map stepCall acts) in
    match ps with
    | _ :: _ =>
        let bindings := join nl (map stepBinding ps) in
        ["  action step = {" +:+ nl +:+ bindings +:+ nl +:+ "    any {" +:+ nl +:+
         calls +:+ "," +:+ nl +:+ "    }" +:+ nl +:+ "  }"]
    | [] => ["  action step = any {" +:+ nl +:+ calls +:+ "," +:+ nl +:+ "  }"]
    end
  else [].

Definition isKind (k : DeclKind) (d : VisualDeclaration) : bool := kind_eqb (kind d) k.

Definition hasInit (decls : list VisualDeclaration) : bool :=
  (0 <? length (initActions decls))%nat || hasExplicit "init" decls.

Definition hasStep (decls : list VisualDeclaration) : bool :=
  (0 <? length (stepActions decls))%nat || hasExplicit "step" decls.

Definition invariants (decls : list VisualDeclaration) : list VisualDeclaration :=
  List.filter (fun d => role_is RInvariant (role d) && truthy (name d)
                        && (isKind KVal d || isKind KDef d)) decls.

(** The [if (hasInit && hasStep)] block. *)
Definition runExtra (decls : list VisualDeclaration) : list string :=
  if hasInit decls && hasStep decls then
    match invariants decls with
    | _ :: _ =>
        let predicate := join " and " (map name (invariants decls)) in
        ["  run invariantTest = init.then(20.reps(_ => step.expect(" +:+ predicate +:+ ")))"]
    | [] => ["  run simulationTest = init.then(20.reps(_ => step))"]
    end
  else [].

(** Generate combined init/step actions when multiple actions share a role:
    [extra] after the three conditional pushes. *)
Definition generateCombinedActions (decls : list VisualDeclaration) : list string :=
  initExtra decls ++ stepExtra decls ++ runExtra decls.

Definition compareKind (a b : VisualDeclaration) : Z :=
  KIND_ORDER (kind a) - KIND_ORDER (kind b).

(** Generate Quint code from a flat list of declarations and a module name. *)
Definition declsToQuint (moduleName : string) (decls : list VisualDeclaration) : string :=
  match decls with
  | [] => "module " +:+ orElse moduleName "Unnamed" +:+ " {" +:+ nl +:+ "}"
  | _ =>
      let sorted := sort compareKind decls in
      let lines := map declToQuint sorted in
      let combined := generateCombinedActions decls in
      let body := join (nl +:+ nl) (lines ++ combined) in
      "module " +:+ orElse moduleName "Unnamed" +:+ " {" +:+ nl +:+ body +:+ nl +:+ "}"
  end.

End Spec.


(** ** store.ts: group sizing, collision resolution, undo history *)

Module Store.
Import Str.

(** A position on the canvas.  Coordinates and sizes are numbers of the
    source; see the modelling conventions for how they are read. *)
Record XYPosition := mkPos { x : Z; y : Z }.

Record Measured := mkMeasured {
  measured_width : option Z;
  measured_height : option Z
}.

(** [node.style]: the two dimensions the store reads and writes, and the
    other CSS properties, which the store only copies. *)
Record Style := mkStyle {
  style_width : option Z;
  style_height : option Z;
  style_rest : list (string * string)
}.

Inductive AnyNodeData :=
| DeclData (d : Spec.VisualDeclaration)
| GroupData (role label : string).

Record Node := mkNode {
  id : string;
  type : option string;
  position : XYPosition;
  parentId : option string;
  measured : option Measured;
  style : option Style;
  data : AnyNodeData
}.

Record Edge := mkEdge { edge_id : string; source : string; target : string }.

Definition GROUP_PADDING : Z := 15.
Definition GROUP_HEADER : Z := 30.
Definition GROUP_BUTTON_AREA : Z := 40.
Definition COLLISION_PAD : Z := 10.

(** [n.measured?.width ?? dflt] and [n.measured?.height ?? dflt] *)
Definition widthOr (dflt : Z) (n : Node) : Z :=
  match measured n with
  | Some m => match measured_width m with Some w => w | None => dflt end
  | None => dflt
  end.

Definition heightOr (dflt : Z) (n : Node) : Z :=
  match measured n with
  | Some m => match measured_height m with Some h => h | None => dflt end
  | None => dflt
  end.

Definition isGroup (n : Node) : bool :=
  match type n with
  | Some t => String.eqb t "role-group"
  | None => false
  end.

(** *** resizeGroups *)

(** One iteration of the loop that fills [childrenByGroup]. *)
Definition addChild (groupIds : gset string) (m : gmap string (list Node)) (n : Node)
  : gmap string (list Node) :=
  match parentId n with
  | Some p =>
      if truthy p && bool_decide (p ∈ groupIds) then
        <[p := default [] (m !! p) ++ [n]]> m
      else m
  | None => m
  end.

Definition childrenByGroup (nodes : list Node) : gmap string (list Node) :=
  let groups := List.filter isGroup nodes in
  let groupIds : gset string := list_to_set (map id groups) in
  fold_left (addChild groupIds) nodes ∅.

(** The loop over the children: [(maxRight, maxBottom)], both starting at 0. *)
Definition extentStep (acc : Z * Z) (child : Node) : Z * Z :=
  let w := widthOr 220 child in
  let h := heightOr 80 child in
  (Z.max (fst acc) (x (position child) + w), Z.max (snd acc) (y (position child) + h)).

Definition maxExtents (children : list Node) : Z * Z :=
  fold_left extentStep children (0, 0).

Definition oldWidth (n : Node) : option Z :=
  match style n with Some s => style_width s | None => None end.

Definition oldHeight (n : Node) : option Z :=
  match style n with Some s => style_height s | None => None end.

Definition withSize (n : Node) (w h : Z) : Node :=
  mkNode (id n) (type n) (position n) (parentId n) (measured n)
    (Some (mkStyle (Some w) (Some h)
             (match style n with Some s => style_rest s | None => [] end)))
    (data n).

(** The callback of [nodes.map]. *)
Definition resizeNode (byGroup : gmap string (list Node)) (node : Node) : Node :=
  if negb (isGroup node) then node
  else match byGroup !! id node with
       | None | Some [] => node
       | Some children =>
           let '(maxRight, maxBottom) := maxExtents children in
           let newWidth := maxRight + GROUP_PADDING in
           let newHeight := maxBottom + GROUP_PADDING + GROUP_BUTTON_AREA in
           if bool_decide (oldWidth node = Some newWidth)
              && bool_decide (oldHeight node = Some newHeight)
           then node
           else withSize node newWidth newHeight
       end.

(** Recalculate group node dimensions to tightly fit their children. *)
Definition resizeGroups (nodes : list Node) : list Node :=
  match List.filter isGroup nodes with
  | [] => nodes
  | _ => map (resizeNode (childrenByGroup nodes)) nodes
  end.

(** *** resolveCollisions *)

Definition parentKey (n : Node) : string := default EmptyString (parentId n).

(** One iteration of the loop that fills [byParent]; [i] is the node index. *)
Definition addIndex (m : OMap.t (list nat)) (e : nat * Node) : OMap.t (list nat) :=
  let key := parentKey (snd e) in
  OMap.set m key (default [] (OMap.get m key) ++ [fst e]).

Definition byParent (nodes : list Node) : OMap.t (list nat) :=
  fold_left addIndex (combine (seq 0 (length nodes)) nodes) [].

Definition padW (n : Node) : Z := widthOr 200 n + COLLISION_PAD.
Definition padH (n : Node) : Z := heightOr 80 n + COLLISION_PAD.

Definition overlapX (a b : Node) : Z :=
  Z.min (x (position a) + padW a) (x (position b) + padW b)
  - Z.max (x (position a)) (x (position b)).

Definition overlapY (a b : Node) : Z :=
  Z.min (y (position a) + padH a) (y (position b) + padH b)
  - Z.max (y (position a)) (y (position b)).

Definition withPosition (n : Node) (p : XYPosition) : Node :=
  mkNode (id n) (type n) p (parentId n) (measured n) (style n) (data n).

(** The position the stopped node gets: [newPos]. *)
Definition stopPosition (ox oy : Z) (stopped blocker : Node) : XYPosition :=
  if ox <? oy then
    if x (position stopped) >=? x (position blocker)
    then mkPos (x (position blocker) + padW blocker) (y (position stopped))
    else mkPos (x (position blocker) - padW stopped) (y (position stopped))
  else
    if y (position stopped) >=? y (position blocker)
    then mkPos (x (position stopped)) (y (position blocker) + padH blocker)
    else mkPos (x (position stopped)) (y (position blocker) - padH stopped).

(** The mutable variables of the loops. *)
Record Loop := mkLoop { out : list Node; settled : bool; didChange : bool }.

(** Which of the pair is stopped and which blocks: [(stopI, blockI)]. *)
Definition chooseStopped (aIsMoved bIsMoved : bool) (ii jj : nat) : nat * nat :=
  if aIsMoved && negb bIsMoved then (ii, jj)
  else if bIsMoved && negb aIsMoved then (jj, ii)
  else (jj, ii).

(** The body of the innermost loop for the node indices [ii = idxs[i]] and
    [jj = idxs[j]].  The indices come from [byParent] and are in range; a
    lookup that fails leaves the variables as they are. *)
Definition pairStep (movedIds : gset string) (ii : nat) (st : Loop) (jj : nat) : Loop :=
  match out st !! ii, out st !! jj with
  | Some a, Some b =>
      let aIsMoved := bool_decide (id a ∈ movedIds) in
      let bIsMoved := bool_decide (id b ∈ movedIds) in
      if negb aIsMoved && negb bIsMoved then st
      else
        let ox := overlapX a b in
        let oy := overlapY a b in
        if (ox <=? 0) || (oy <=? 0) then st
        else
          let '(stopI, blockI) := chooseStopped aIsMoved bIsMoved ii jj in
          match out st !! blockI, out st !! stopI with
          | Some blocker, Some stopped =>
              let newPos := stopPosition ox oy stopped blocker in
              mkLoop (<[stopI := withPosition stopped newPos]> (out st)) false true
          | _, _ => st
          end
  | _, _ => st
  end.

(** The two nested [for] loops over [i < j] of one pass. *)
Fixpoint pairLoops (movedIds : gset string) (idxs : list nat) (st : Loop) : Loop :=
  match idxs with
  | [] => st
  | ii :: rest => pairLoops movedIds rest (fold_left (pairStep movedIds ii) rest st)
  end.

(** One pass: [settled = true], then the pair loops. *)
Definition onePass (movedIds : gset string) (idxs : list nat) (st : Loop) : Loop :=
  pairLoops movedIds idxs (mkLoop (out st) true (didChange st)).

(** [for (let pass = 0; pass < 3; pass++) { ...; if (settled) break }] with
    [n] passes left. *)
Fixpoint passes (movedIds : gset string) (n : nat) (idxs : list nat) (st : Loop) : Loop :=
  match n with
  | O => st
  | S n' =>
      let st' := onePass movedIds idxs st in
      if settled st' then st' else passes movedIds n' idxs st'
  end.

(** The body of the loop over the sibling groups. *)
Definition groupStep (movedIds : gset string) (st : Loop) (g : string * list nat) : Loop :=
  if (length (snd g) <? 2)%nat then st else passes movedIds 3 (snd g) st.

(** Stop dragged nodes at the edge of any sibling they collide with. *)
Definition resolveCollisions (nodes : list Node) (movedIds : gset string) : list Node :=
  if bool_decide (size movedIds = 0%nat) then nodes
  else
    let st := fold_left (groupStep movedIds) (byParent nodes) (mkLoop nodes true false) in
    if didChange st then out st else nodes.

(** *** The undo history *)

Record HistoryEntry := mkEntry {
  entry_nodes : list Node;
  entry_edges : list Edge;
  entry_moduleName : string
}.

(** The fields of [AppState] that the history actions read or write. *)
Record AppState := mkState {
  nodes : list Node;
  edges : list Edge;
  moduleName : string;
  history : list HistoryEntry;
  historyIndex : Z
}.

Definition initialState : AppState := mkState [] [] "MyModule" [] (-1).

(** [arr.slice(0, e)]: a negative end counts from the end of the array. *)
Definition slice0 {A} (l : list A) (e : Z) : list A :=
  let len := Z.of_nat (length l) in
  let stop := if e <? 0 then Z.max (len + e) 0 else Z.min e len in
  take (Z.to_nat stop) l.

Definition HISTORY_CAP : nat := 50.

(** [JSON.parse(JSON.stringify(v))] is a deep copy: the same value. *)
Definition pushHistory (s : AppState) : AppState :=
  let entry := mkEntry (nodes s) (edges s) (moduleName s) in
  let newHistory := slice0 (history s) (historyIndex s + 1) in
  let newHistory := newHistory ++ [entry] in
  let newHistory := if (HISTORY_CAP <? length newHistory)%nat then tail newHistory
                    else newHistory in
  mkState (nodes s) (edges s) (moduleName s) newHistory (Z.of_nat (length newHistory) - 1).

(** [history[i]] for a number [i]: [undefined] out of range. *)
Definition entryAt (h : list HistoryEntry) (i : Z) : option HistoryEntry :=
  if i <? 0 then None else h !! Z.to_nat i.

(** Reading a field of [undefined] throws before [set] is called, so the
    state is left as it is. *)
Definition undo (s : AppState) : AppState :=
  if historyIndex s <=? 0 then s
  else match entryAt (history s) (historyIndex s - 1) with
       | Some entry =>
           mkState (entry_nodes entry) (entry_edges entry) (entry_moduleName entry)
             (history s) (historyIndex s - 1)
       | None => s
       end.

Definition redo (s : AppState) : AppState :=
  if historyIndex s >=? Z.of_nat (length (history s)) - 1 then s
  else match entryAt (history s) (historyIndex s + 1) with
       | Some entry =>
           mkState (entry_nodes entry) (entry_edges entry) (entry_moduleName entry)
             (history s) (historyIndex s + 1)
       | None => s
       end.

(** The store actions as far as the history is concerned: every other
    action replaces the canvas content and leaves [history] and
    [historyIndex] alone. *)
Inductive Action :=
| PushHistory
| Undo
| Redo
| SetContent (ns : list Node) (es : list Edge) (m : string).

Definition step (s : AppState) (a : Action) : AppState :=
  match a with
  | PushHistory => pushHistory s
  | Undo => undo s
  | Redo => redo s
  | SetContent ns es m => mkState ns es m (history s) (historyIndex s)
  end.

Definition run (s : AppState) (l : list Action) : AppState := fold_left step l s.

End Store.

(** ** Reference notions used in the statements *)

Module Reference.
Import Str Spec.

(** The identifier of the module envelope. *)
Definition moduleId (moduleName : string) : string := orElse moduleName "Unnamed".

(** The envelope around a non-empty body. *)
Definition envelope (moduleName body : string) : string :=
  "module " +:+ moduleId moduleName +:+ " {" +:+ nl +:+ body +:+ nl +:+ "}".

Definition withName (d : VisualDeclaration) (n : string) : VisualDeclaration :=
  mkDecl (id d) (kind d) n (type d) (params d) (body d) (role d) (pure d).

(** The declarations of one kind, in collection order. *)
Definition ofKind (k : DeclKind) (decls : list VisualDeclaration) : list VisualDeclaration :=
  List.filter (isKind k) decls.

(** Type aliases, constants, variables, values, functions, actions,
    assumptions: each kind in collection order. *)
Definition byPriority (decls : list VisualDeclaration) : list VisualDeclaration :=
  ofKind KType decls ++ ofKind KConst decls ++ ofKind KVar decls ++ ofKind KVal decls
  ++ ofKind KDef decls ++ ofKind KAction decls ++ ofKind KAssume decls.

Definition kindLe (a b : VisualDeclaration) : Prop :=
  KIND_ORDER (kind a) <= KIND_ORDER (kind b).

(** Two variables, in the two possible insertion orders. *)
Definition varX : VisualDeclaration := mkDecl "1" KVar "x" "int" "" "" None None.

(** The parts of a rendered function or action. *)
Definition shownName (d : VisualDeclaration) : string := orElse (name d) "_unnamed".



(** A line is blank when it has white space only. *)
Fixpoint blank (l : string) : bool :=
  match l with
  | EmptyString => true
  | String c r => isWhiteSpace c && blank r
  end.




(** A three-line action body, the second line blank, one comma present. *)
Definition transfer : VisualDeclaration :=
  mkDecl "3" KAction "transfer" "" "a, b"
    ("x' = x - 1," +:+ nl +:+ "   " +:+ nl +:+ "  y' = y + 1") None None.

(** What the synthesized initializer, step and run are equal to, after
    their fixed openings. *)
Definition initRhs (decls : list VisualDeclaration) : string :=
  match initActions decls with
  | [a] => name a
  | acts => "all {" +:+ nl +:+ join ("," +:+ nl) (map (fun a => "    " +:+ name a) acts)
            +:+ "," +:+ nl +:+ "  }"
  end.

Definition isInitDef (s : string) : bool := startsWith "  action init = " s.
Definition isStepDef (s : string) : bool := startsWith "  action step = " s.
Definition isRun (s : string) : bool := startsWith "  run " s.

(** An action called [init] is in the output, written by the user or
    synthesized; the same for [step]. *)
Definition initPresent (decls : list VisualDeclaration) : Prop :=
  hasExplicit "init" decls = true \/ needsInit decls = true.

Definition stepPresent (decls : list VisualDeclaration) : Prop :=
  hasExplicit "step" decls = true \/ needsStep decls = true.

Definition isInvariant (d : VisualDeclaration) : Prop :=
  role d = Some RInvariant /\ name d <> "" /\ (kind d = KVal \/ kind d = KDef).

(** Example declarations. *)
Definition action (nm ps : string) (r : option Role) : VisualDeclaration :=
  mkDecl nm KAction nm "" ps "true" r None.

Definition setup : VisualDeclaration := action "setup" "" (Some RInit).
Definition seed : VisualDeclaration := action "seed" "" (Some RInit).
Definition explicitInit : VisualDeclaration := action "init" "" (Some RInit).
Definition explicitStep : VisualDeclaration := action "step" "" (Some RStep).
Definition safe : VisualDeclaration :=
  mkDecl "safe" KVal "safe" "" "" "x >= 0" (Some RInvariant) None.

(** One entry of a parameter list: its name, and its declared type or
    [int] when there is none. *)
Definition paramPair (part : string) : string * string :=
  let pieces := map trim (split ":" part) in
  (hd EmptyString pieces,
   match nth_error pieces 1 with
   | Some t => orElse t "int"
   | None => "int"
   end).

(** The named parameters of one action, and of a list of actions, in the
    order in which they are written. *)
Definition paramsOf (a : VisualDeclaration) : list (string * string) :=
  if truthy (trim (params a))
  then List.filter (fun p => truthy (fst p)) (map paramPair (split "," (params a)))
  else [].

Definition declaredParams (acts : list VisualDeclaration) : list (string * string) :=
  flat_map paramsOf acts.

Definition otherName (p q : string * string) : bool := negb (String.eqb (fst q) (fst p)).

(** Each name once, at its first occurrence and with the type given there. *)
Fixpoint firstOccurrences (l : list (string * string)) : list (string * string) :=
  match l with
  | [] => []
  | p :: r => p :: List.filter (otherName p) (firstOccurrences r)
  end.

(** One parameter entering the map: kept when its name is new. *)
Definition enter (seen : OMap.t string) (p : string * string) : OMap.t string :=
  if OMap.has seen (fst p) then seen else seen ++ [p].

(** The type-appropriate default domain. *)
Definition domainOf (type : string) : string :=
  if String.eqb (toLowerCase type) "bool" then "Set(true, false)"
  else if String.eqb (toLowerCase type) "str" then
    "Set(" +:+ dq +:+ "a" +:+ dq +:+ ", " +:+ dq +:+ "b" +:+ dq +:+ ", "
           +:+ dq +:+ "c" +:+ dq +:+ ")"
  else "1.to(100)".



(** The qualifier in front of the keyword: values and functions can be
    pure. *)
Definition qualifier (d : VisualDeclaration) : string :=
  if isPure d && (isKind KVal d || isKind KDef d) then "pure " else "".

(** The body of the envelope: nothing for the empty collection; otherwise
    the declarations by kind priority, then the synthesized fragments, one
    blank line between two fragments, and a line break at the end. *)
Definition moduleBody (decls : list VisualDeclaration) : string :=
  match decls with
  | [] => ""
  | _ => join (nl +:+ nl) (map declToQuint (byPriority decls) ++ generateCombinedActions decls)
         +:+ nl
  end.

(** Declarations without a name: a variable, and an action of init role. *)
Definition unnamedVar : VisualDeclaration := mkDecl "4" KVar "" "" "" "" None None.

Definition unnamedInit : VisualDeclaration :=
  mkDecl "5" KAction "" "" "" "x' = 0" (Some RInit) None.








(** An action that carries the init role; an action with a given name in
    a collection. *)
Definition carriesInit (d : VisualDeclaration) : Prop :=
  role d = Some RInit /\ kind d = KAction.

Definition namedAction (nm : string) (decls : list VisualDeclaration) : Prop :=
  exists d, In d decls /\ kind d = KAction /\ name d = nm.

(** [l'] holds the elements of [l] that satisfy [P], in the order and with
    the multiplicity they have in [l]. *)
Inductive Selected {A : Type} (P : A -> Prop) : list A -> list A -> Prop :=
| Selected_nil : Selected P [] []
| Selected_keep x l l' : P x -> Selected P l l' -> Selected P (x :: l) (x :: l')
| Selected_drop x l l' : ~ P x -> Selected P l l' -> Selected P (x :: l) l'.

End Reference.

(** ** Reference notions for the store *)

Module StoreReference.
Import Str Store.

Definition childOf (k : string) (n : Node) : bool :=
  match parentId n with
  | Some p => String.eqb p k
  | None => false
  end.

(** The direct children of a group: the nodes whose [parentId] is the
    group's (non-empty) id, in array order. *)
Definition directChildren (g : Node) (nodes : list Node) : list Node :=
  if truthy (id g) then List.filter (childOf (id g)) nodes else [].

Definition rightExtent (child : Node) : Z := x (position child) + widthOr 220 child.
Definition bottomExtent (child : Node) : Z := y (position child) + heightOr 80 child.

(** The greatest of 0 and the numbers of a list. *)
Definition maxOf0 (l : list Z) : Z := fold_right Z.max 0 l.

(** The greatest number of a non-empty list. *)
Fixpoint maximum (l : list Z) : option Z :=
  match l with
  | [] => None
  | v :: r => Some (match maximum r with Some m => Z.max v m | None => v end)
  end.

(** The entry of [childrenByGroup] for the key [k], given the group ids. *)
Definition grouped (G : gset string) (nodes : list Node) (k : string)
  : option (list Node) :=
  if truthy k && bool_decide (k ∈ G) then
    match List.filter (childOf k) nodes with
    | [] => None
    | l => Some l
    end
  else None.

Definition fitWidth (children : list Node) : Z :=
  maxOf0 (map rightExtent children) + GROUP_PADDING.

Definition fitHeight (children : list Node) : Z :=
  maxOf0 (map bottomExtent children) + GROUP_PADDING + GROUP_BUTTON_AREA.

(** What [resizeGroups] makes of one node of the array. *)
Definition fitted (nodes : list Node) (node : Node) : Node :=
  if isGroup node then
    match directChildren node nodes with
    | [] => node
    | children => withSize node (fitWidth children) (fitHeight children)
    end
  else node.

(** A group and its only child, which sits up and left of the group's
    origin. *)
Definition lonelyGroup : Node :=
  mkNode "g" (Some "role-group") (mkPos 0 0) None None None (GroupData "state" "STATE").

Definition strayChild : Node :=
  mkNode "c" (Some "state-var") (mkPos (-500) (-300)) (Some "g") None None
    (DeclData (Spec.mkDecl "c" Spec.KVar "balances" "int" "" "" None None)).

(** [out'] differs from [out] in positions only, and only at nodes whose
    id is in the moving set. *)
Definition displacedOnlyMoved (movedIds : gset string) (out out' : list Node) : Prop :=
  length out' = length out
  /\ forall k n, out !! k = Some n ->
       exists n', out' !! k = Some n'
                  /\ n' = withPosition n (position n')
                  /\ (id n ∉ movedIds -> n' = n).








(** Two siblings on the canvas root: the dragged card overlaps the fixed
    one by 60 on the x axis and by 90 on the y axis. *)
Definition dragged : Node :=
  mkNode "m" (Some "action") (mkPos 150 0) None None None
    (DeclData (Spec.mkDecl "m" Spec.KAction "deposit" "" "" "true" None None)).

Definition fixed : Node :=
  mkNode "f" (Some "action") (mkPos 0 0) None None None
    (DeclData (Spec.mkDecl "f" Spec.KAction "withdraw" "" "" "true" None None)).



(** The indices of the nodes whose parent key is [key], among indexed nodes. *)
Definition indicesOf (key : string) (l : list (nat * Node)) : list nat :=
  map fst (List.filter (fun e => String.eqb (parentKey (snd e)) key) l).

Definition indexed (nodes : list Node) : list (nat * Node) :=
  combine (seq 0 (length nodes)) nodes.

End StoreReference.

(** ** spec.ts: the declaration constructors and the role heuristic *)

Module SpecMore.
Import Str Spec.

(** [Partial<VisualDeclaration>]: the fields an object literal gives; a field
    that is given holds a value. *)
Record Overrides := mkOverrides {
  o_id : option string;
  o_kind : option DeclKind;
  o_name : option string;
  o_type : option string;
  o_params : option string;
  o_body : option string;
  o_role : option Role;
  o_pure : option bool
}.

Definition noOverrides : Overrides :=
  mkOverrides None None None None None None None None.

(** [{ id, kind, name: '', type: '', params: '', body: '', ...overrides }] *)
Definition createDeclaration (id : string) (kind : DeclKind) (overrides : Overrides)
  : VisualDeclaration :=
  mkDecl (default id (o_id overrides)) (default kind (o_kind overrides))
    (default EmptyString (o_name overrides)) (default EmptyString (o_type overrides))
    (default EmptyString (o_params overrides)) (default EmptyString (o_body overrides))
    (o_role overrides) (o_pure overrides).

Definition named (n : string) : Overrides :=
  mkOverrides None None (Some n) None None None None None.

Definition withType (t : string) (o : Overrides) : Overrides :=
  mkOverrides (o_id o) (o_kind o) (o_name o) (Some t) (o_params o) (o_body o)
    (o_role o) (o_pure o).

Definition withParams (p : string) (o : Overrides) : Overrides :=
  mkOverrides (o_id o) (o_kind o) (o_name o) (o_type o) (Some p) (o_body o)
    (o_role o) (o_pure o).

Definition withBody (b : string) (o : Overrides) : Overrides :=
  mkOverrides (o_id o) (o_kind o) (o_name o) (o_type o) (o_params o) (Some b)
    (o_role o) (o_pure o).

Definition withRole (r : Role) (o : Overrides) : Overrides :=
  mkOverrides (o_id o) (o_kind o) (o_name o) (o_type o) (o_params o) (o_body o)
    (Some r) (o_pure o).

Definition withPure (b : bool) (o : Overrides) : Overrides :=
  mkOverrides (o_id o) (o_kind o) (o_name o) (o_type o) (o_params o) (o_body o)
    (o_role o) (Some b).

Definition quoted (s : string) : string := dq +:+ s +:+ dq.

(** The body of the scaffold's [step] action. *)
Definition scaffoldStepBody : string :=
  "nondet account = ADDRESSES.oneOf()" +:+ nl
  +:+ "nondet amount = 1.to(100).oneOf()" +:+ nl
  +:+ "any {" +:+ nl
  +:+ "  deposit(account, amount)," +:+ nl
  +:+ "  withdraw(account, amount)," +:+ nl
  +:+ "}".

(** Create a state machine scaffold matching the Quint bank example.
    [idGen k] is what the call number [k] of the id generator returns; the
    array literal calls it seven times, in order. *)
Definition createStateMachineDecls (idGen : nat -> string) : list VisualDeclaration :=
  [ createDeclaration (idGen 0%nat) KVar (withType "str -> int" (named "balances"));
    createDeclaration (idGen 1%nat) KVal
      (withPure true
         (withBody ("Set(" +:+ quoted "alice" +:+ ", " +:+ quoted "bob" +:+ ", "
                    +:+ quoted "charlie" +:+ ")")
            (named "ADDRESSES")));
    createDeclaration (idGen 2%nat) KAction
      (withRole RInit (withBody "balances' = ADDRESSES.mapBy(_ => 0)" (named "init")));
    createDeclaration (idGen 3%nat) KAction
      (withBody "balances' = balances.setBy(account, curr => curr + amount)"
         (withParams "account, amount" (named "deposit")));
    createDeclaration (idGen 4%nat) KAction
      (withBody "balances' = balances.setBy(account, curr => curr - amount)"
         (withParams "account, amount" (named "withdraw")));
    createDeclaration (idGen 5%nat) KAction
      (withRole RStep (withBody scaffoldStepBody (named "step")));
    createDeclaration (idGen 6%nat) KVal
      (withRole RInvariant
         (withBody "ADDRESSES.forall(addr => balances.get(addr) >= 0)"
            (named "no_negatives"))) ].

(** Detect state machine roles by name convention. *)
Definition inferRole (name : string) : option Role :=
  let lower := toLowerCase name in
  if String.eqb lower "init" then Some RInit
  else if String.eqb lower "step" || String.eqb lower "next" then Some RStep
  else if startsWith "inv" lower || endsWith "invariant" lower then Some RInvariant
  else None.

End SpecMore.

(** ** store.ts: the canvas actions *)

Module StoreMore.
Import Str Spec SpecMore Store.

(** Maps DeclKind to the React Flow node type string. *)
Definition KIND_TO_NODE_TYPE (k : DeclKind) : string :=
  match k with
  | KVar => "state-var"
  | KConst => "const"
  | KVal => "val"
  | KDef => "def"
  | KAction => "action"
  | KType => "type"
  | KAssume => "val"
  end.

(** The store: the fields of [Store.AppState] and the remaining ones of the
    source's [AppState]. *)
Record UiState := mkUi {
  app : AppState;
  selectedNodeId : option string;
  showCodePreview : bool;
  panelWidth : Z
}.

Definition initialUi : UiState := mkUi initialState None false 500.

(** [set({ nodes, edges })]: the other fields stay. *)
Definition setCanvas (a : AppState) (ns : list Node) (es : list Edge) : AppState :=
  mkState ns es (moduleName a) (history a) (historyIndex a).

(** The [defaults] table of [addDeclNode]. *)
Definition declDefaults (k : DeclKind) : Overrides :=
  match k with
  | KVar => withType "int" (named "myVar")
  | KConst => withType "int" (named "MY_CONST")
  | KVal => withBody "true" (named "myVal")
  | KDef => withBody "true" (withParams "" (named "myDef"))
  | KAction => withBody "true" (withParams "" (named "myAction"))
  | KType => withBody "int" (named "MyType")
  | KAssume => withBody "true" (named "myAssumption")
  end.

(** [addDeclNode(kind, x, y)]; [newId] is what [nanoid(8)] returns. *)
Definition addDeclNode (newId : string) (kind : DeclKind) (x y : Z) (u : UiState)
  : UiState :=
  let decl := createDeclaration newId kind (declDefaults kind) in
  let newNode :=
    mkNode newId (Some (KIND_TO_NODE_TYPE kind)) (mkPos x y) None None None
      (DeclData decl) in
  let a := pushHistory (app u) in
  mkUi (setCanvas a (nodes a ++ [newNode]) (edges a)) (Some newId)
    (showCodePreview u) (panelWidth u).

(** [(groupNode?.data as RoleGroupData | undefined)?.role]: a declaration
    node has its declaration's role there. *)
Definition roleName (r : Role) : string :=
  match r with RInit => "init" | RStep => "step" | RInvariant => "invariant" end.

Definition dataRole (d : AnyNodeData) : option string :=
  match d with
  | DeclData decl => option_map roleName (Spec.role decl)
  | GroupData r _ => Some r
  end.

(** One entry of [roleConfig]. *)
Record RoleConfig := mkConfig {
  cfg_kind : DeclKind;
  cfg_nodeType : string;
  cfg_defaults : Overrides
}.

Definition stepConfig : RoleConfig :=
  mkConfig KAction "action"
    (withRole RStep (withBody "true" (withParams "" (named "step")))).

(** [roleConfig[groupRole]] for the five keys of the table; the role of a
    group is one of them by its type. *)
Definition roleConfig (groupRole : string) : option RoleConfig :=
  if String.eqb groupRole "state" then
    Some (mkConfig KVar "state-var" (withType "int" (named "myVar")))
  else if String.eqb groupRole "init" then
    Some (mkConfig KAction "action" (withRole RInit (withBody "true" (named "newInit"))))
  else if String.eqb groupRole "actions" then
    Some (mkConfig KAction "action"
            (withBody "true" (withParams "" (named "newAction"))))
  else if String.eqb groupRole "step" then Some stepConfig
  else if String.eqb groupRole "invariant" then
    Some (mkConfig KVal "val"
            (withRole RInvariant (withBody "true" (named "newInvariant"))))
  else None.

Definition hasParent (groupId : string) (n : Node) : bool :=
  match parentId n with
  | Some p => String.eqb p groupId
  | None => false
  end.

(** The loop that finds the lowest child: [maxBottom]. *)
Definition lowerEdge (maxBottom : Z) (child : Node) : Z :=
  let h := heightOr 80 child in
  let bottom := y (position child) + h + COLLISION_PAD in
  if bottom >? maxBottom then bottom else maxBottom.

Definition lowestBottom (children : list Node) : Z :=
  fold_left lowerEdge children (GROUP_HEADER + 5).

(** The node [addNodeToGroup] creates. *)
Definition groupChild (newId groupId : string) (ns : list Node) : Node :=
  let groupNode := List.find (fun n => String.eqb (id n) groupId) ns in
  let groupRole :=
    default "step" (match groupNode with Some g => dataRole (data g) | None => None end) in
  let config := default stepConfig (roleConfig groupRole) in
  let decl := createDeclaration newId (cfg_kind config) (cfg_defaults config) in
  let children := List.filter (hasParent groupId) ns in
  mkNode newId (Some (cfg_nodeType config)) (mkPos GROUP_PADDING (lowestBottom children))
    (Some groupId) None None (DeclData decl).

(** [addNodeToGroup(groupId)]; [newId] is what [nanoid(8)] returns. *)
Definition addNodeToGroup (newId groupId : string) (u : UiState) : UiState :=
  let newNode := groupChild newId groupId (nodes (app u)) in
  let a := pushHistory (app u) in
  mkUi (setCanvas a (resizeGroups (nodes a ++ [newNode])) (edges a)) (Some newId)
    (showCodePreview u) (panelWidth u).

Definition deleteDeclNode (nodeId : string) (u : UiState) : UiState :=
  let a := pushHistory (app u) in
  mkUi
    (setCanvas a
       (List.filter (fun n => negb (String.eqb (id n) nodeId)) (nodes a))
       (List.filter (fun e => negb (String.eqb (source e) nodeId)
                              && negb (String.eqb (target e) nodeId)) (edges a)))
    (match selectedNodeId u with
     | Some s => if String.eqb s nodeId then None else Some s
     | None => None
     end)
    (showCodePreview u) (panelWidth u).

Definition clearCanvas (u : UiState) : UiState :=
  let a := pushHistory (app u) in
  mkUi (setCanvas a [] []) None (showCodePreview u) 500.

Definition undoUi (u : UiState) : UiState :=
  mkUi (undo (app u)) (selectedNodeId u) (showCodePreview u) (panelWidth u).

Definition redoUi (u : UiState) : UiState :=
  mkUi (redo (app u)) (selectedNodeId u) (showCodePreview u) (panelWidth u).

(** [n.data as VisualDeclaration]: the declaration a node carries.  The store
    gives every node that is not a role-group a declaration as its data; a
    node of another type that carries group data is outside the model. *)
Definition asDeclaration (n : Node) : option VisualDeclaration :=
  match data n with
  | DeclData d => Some d
  | GroupData _ _ => None
  end.

Fixpoint declarations (ns : list Node) : option (list VisualDeclaration) :=
  match ns with
  | [] => Some []
  | n :: r =>
      if isGroup n then declarations r
      else match asDeclaration n, declarations r with
           | Some d, Some ds => Some (d :: ds)
           | _, _ => None
           end
  end.

Definition getQuintCode (u : UiState) : option string :=
  option_map (declsToQuint (moduleName (app u))) (declarations (nodes (app u))).

(** ExecutionPanel, [handleRun]: the invariant passed to the simulator,
    from the nodes with [role === 'invariant'] and a name. *)
Definition dataName (d : AnyNodeData) : option string :=
  match d with
  | DeclData decl => Some (Spec.name decl)
  | GroupData _ _ => None
  end.

Definition namedInvariant (n : Node) : bool :=
  negb (isGroup n)
  && match dataRole (data n) with Some r => String.eqb r "invariant" | None => false end
  && match dataName (data n) with Some nm => truthy nm | None => false end.

Definition invNames (ns : list Node) : list string :=
  map (fun n => default EmptyString (dataName (data n))) (List.filter namedInvariant ns).

Definition runInvariant (ns : list Node) : string :=
  match invNames ns with
  | [] => "true"
  | names => join " and " names
  end.

End StoreMore.

(** ** Reference notions for the further properties *)

Module MoreReference.
Import Str Spec SpecMore Reference.

Definition noChar (c : ascii) (s : string) : Prop := includes c s = false.

(** A parameter name as [parseParamNames] gives it: not empty, no white
    space around it, no comma and no colon in it. *)
Definition cleanName (n : string) : Prop :=
  n <> "" /\ trim n = n /\ noChar "," n /\ noChar ":" n.

Definition withId (d : VisualDeclaration) (i : string) : VisualDeclaration :=
  mkDecl i (kind d) (name d) (type d) (params d) (body d) (role d) (pure d).

(** Every declaration given the id [f] chooses for it. *)
Definition reid (f : VisualDeclaration -> string) (d : VisualDeclaration)
  : VisualDeclaration := withId d (f d).

(** The declarations the synthesis looks at: the actions, and the named
    values and functions of invariant role. *)
Definition relevant (d : VisualDeclaration) : bool :=
  isAction d
  || (role_is RInvariant (role d) && truthy (name d) && (isKind KVal d || isKind KDef d)).

(** A variable that carries a role by mistake. *)
Definition taggedVar : VisualDeclaration :=
  mkDecl "v" KVar "init" "int" "" "" (Some RInit) None.

End MoreReference.

(** ** Reference notions for the further properties of the store *)

Module StoreMoreReference.
Import Str Store StoreMore StoreReference.

(** The fields of a node that [resizeGroups] never writes. *)
Definition sameButStyle (n n' : Node) : Prop :=
  id n' = id n /\ type n' = type n /\ position n' = position n
  /\ parentId n' = parentId n /\ measured n' = measured n /\ data n' = data n.

(** The canvas content of a state, as a history entry holds it. *)
Definition content (s : AppState) : HistoryEntry :=
  mkEntry (nodes s) (edges s) (moduleName s).

Definition setContent (s : AppState) (e : HistoryEntry) : AppState :=
  mkState (entry_nodes e) (entry_edges e) (entry_moduleName e) (history s) (historyIndex s).

(** The node has no sibling in the array: no other index holds a node with
    the same parent key. *)
Definition onlyChild (nodes : list Node) (k : nat) (n : Node) : Prop :=
  forall j m, nodes !! j = Some m -> parentKey m = parentKey n -> j = k.

(** A state whose history holds one snapshot, of an empty canvas. *)
Definition oneSnapshot : AppState :=
  mkState [lonelyGroup] [] "M" [mkEntry [] [] "M"] 0.

Definition sampleUi : UiState := mkUi oneSnapshot (Some "g") false 420.

(** A history after the cap is applied. *)
Definition capped (l : list HistoryEntry) : list HistoryEntry :=
  if (HISTORY_CAP <? length l)%nat then tail l else l.

(** A declaration that names an invariant, as [handleRun] tests it. *)
Definition namesInvariant (d : Spec.VisualDeclaration) : bool :=
  Spec.role_is Spec.RInvariant (Spec.role d) && truthy (Spec.name d).

Definition valueOrFunction (d : Spec.VisualDeclaration) : bool :=
  Spec.isKind Spec.KVal d || Spec.isKind Spec.KDef d.

(** A canvas with one invariant. *)
Definition safeNode : Node :=
  mkNode "s" (Some "val") (mkPos 0 0) None None None (DeclData Reference.safe).

(** No two nodes with the same parent key have overlapping padded boxes. *)
Definition siblingsApart (nodes : list Node) : Prop :=
  forall i j a b, i <> j -> nodes !! i = Some a -> nodes !! j = Some b ->
                  parentKey a = parentKey b ->
                  overlapX a b <= 0 \/ overlapY a b <= 0.

(** Two cards side by side under the same group, 300 apart. *)
Definition leftCard : Node :=
  mkNode "l" (Some "action") (mkPos 0 0) (Some "g") None None
    (DeclData Reference.setup).

Definition rightCard : Node :=
  mkNode "r" (Some "action") (mkPos 300 0) (Some "g") None None
    (DeclData Reference.seed).

End StoreMoreReference.

(** ** Properties of the code generator *)

Module SpecProps.
Import Str Spec Reference.

Lemma kind_eqb_eq a b : kind_eqb a b = true <-> a = b.
Proof. destruct a, b; simpl; split; intros H; congruence. Qed.

Lemma ofKind_kind k l : Forall (fun d => kind d = k) (ofKind k l).
Proof.
  apply List.Forall_forall. intros d Hd.
  apply List.filter_In in Hd as [_ Hd]. now apply kind_eqb_eq.
Qed.

Section InsertSorted.
Context {A : Type} (cmp : A -> A -> Z).

Lemma insertSorted_skip x l1 l2 :
  Forall (fun y => 0 < cmp x y) l1 ->
  insertSorted cmp x (l1 ++ l2) = l1 ++ insertSorted cmp x l2.
Proof.
  induction 1 as [|y l1 Hy _ IH]; simpl; [reflexivity|].
  destruct (Z.leb_spec (cmp x y) 0); [lia|]. now rewrite IH.
Qed.

Lemma insertSorted_front x l :
  Forall (fun y => cmp x y <= 0) l -> insertSorted cmp x l = x :: l.
Proof.
  destruct 1 as [|y l Hy _]; simpl; [reflexivity|].
  destruct (Z.leb_spec (cmp x y) 0); [reflexivity|lia].
Qed.
End InsertSorted.

Lemma ofKind_cons_same k d l : kind d = k -> ofKind k (d :: l) = d :: ofKind k l.
Proof.
  intros <-. unfold ofKind, isKind; simpl.
  now replace (kind_eqb (kind d) (kind d)) with true by (now destruct (kind d)).
Qed.

Lemma ofKind_cons_other k d l : kind d <> k -> ofKind k (d :: l) = ofKind k l.
Proof.
  intros Hk. unfold ofKind, isKind; simpl.
  destruct (kind_eqb (kind d) k) eqn:E; [|reflexivity].
  now apply kind_eqb_eq in E.
Qed.

Lemma ofKind_cmp_gt (x : VisualDeclaration) k l :
  KIND_ORDER k < KIND_ORDER (kind x) ->
  Forall (fun y => 0 < compareKind x y) (ofKind k l).
Proof.
  intros Hlt. eapply List.Forall_impl; [|apply ofKind_kind].
  intros y Hy; unfold compareKind; simpl in *; rewrite Hy; lia.
Qed.

Lemma ofKind_cmp_le (x : VisualDeclaration) k l :
  KIND_ORDER (kind x) <= KIND_ORDER k ->
  Forall (fun y => compareKind x y <= 0) (ofKind k l).
Proof.
  intros Hle. eapply List.Forall_impl; [|apply ofKind_kind].
  intros y Hy; unfold compareKind; simpl in *; rewrite Hy; lia.
Qed.

Local Ltac skip_block :=
  rewrite insertSorted_skip by (apply ofKind_cmp_gt; match goal with E : kind _ = _ |- _ => rewrite E end; simpl; lia).

Local Ltac front_block :=
  rewrite insertSorted_front
    by (repeat (apply List.Forall_app; split);
        apply ofKind_cmp_le; match goal with E : kind _ = _ |- _ => rewrite E end; simpl; lia).

Lemma insertSorted_byPriority d l :
  insertSorted compareKind d (byPriority l) = byPriority (d :: l).
Proof.
  unfold byPriority.
  destruct (kind d) eqn:E;
    rewrite (ofKind_cons_same _ d l E);
    rewrite !ofKind_cons_other by (rewrite E; discriminate);
    repeat skip_block; front_block; reflexivity.
Qed.

Lemma sort_byPriority decls : sort compareKind decls = byPriority decls.
Proof.
  induction decls as [|d l IH]; [reflexivity|].
  simpl. rewrite IH. apply insertSorted_byPriority.
Qed.

(** *** String facts *)

Lemma app_cons_s ch (a b : string) : String ch a +:+ b = String ch (a +:+ b).
Proof. reflexivity. Qed.

Lemma app_assoc_s (a b c : string) : (a +:+ b) +:+ c = a +:+ (b +:+ c).
Proof.
  induction a as [|ch a IH]; [reflexivity|]. now rewrite !app_cons_s, IH.
Qed.

Lemma orElse_nonempty a b : a <> "" -> orElse a b = a.
Proof. unfold orElse. destruct (String.eqb_spec a ""); congruence. Qed.

(** *** The envelope and the placeholder name *)

Lemma declsToQuint_cons moduleName d ds :
  declsToQuint moduleName (d :: ds)
  = envelope moduleName
      (join (nl +:+ nl)
         (map declToQuint (sort compareKind (d :: ds)) ++ generateCombinedActions (d :: ds))).
Proof. reflexivity. Qed.

Lemma declToQuint_heading d :
  exists rest, declToQuint d
               = "  " +:+ qualifier d +:+ kindStr (kind d) +:+ " " +:+ shownName d +:+ rest.
Proof.
  unfold declToQuint, qualifier, shownName, isKind.
  destruct (kind d) eqn:Ek; cbn [kind_eqb kindStr orb andb];
    rewrite ?andb_false_r, ?andb_true_r;
    repeat match goal with
           | |- context [if ?b then _ else _] => destruct b
           end;
    rewrite ?app_assoc_s; cbn [String.append]; eexists; reflexivity.
Qed.

(** C1: for every module name and every collection, [declsToQuint] returns
    the envelope [module <id> {], the body, [}], where [<id>] is the given
    name, or [Unnamed] when the name is empty, and the body holds the
    rendered declarations and, after them, the synthesized fragments; the
    empty collection gives the envelope with an empty body and nothing
    synthesized; every rendered declaration opens with its keyword followed
    by its name, and by the placeholder [_unnamed] when the name is empty,
    so that a declaration without a name is rendered as the same declaration
    named [_unnamed].  The placeholder stands in the declaration's own
    fragment: a synthesized initializer refers to an action by the name as
    it is written, which is nothing for an action without a name. *)
Theorem declsToQuint_envelope (moduleName : string) (decls : list VisualDeclaration) :
  declsToQuint moduleName decls
  = "module " +:+ moduleId moduleName +:+ " {" +:+ nl +:+ moduleBody decls +:+ "}"
  /\ moduleId "" = "Unnamed"
  /\ (moduleName <> "" -> moduleId moduleName = moduleName)
  /\ declsToQuint moduleName [] = "module " +:+ moduleId moduleName +:+ " {" +:+ nl +:+ "}"
  /\ generateCombinedActions [] = []
  /\ (forall d : VisualDeclaration,
         name d = "" ->
         exists rest, declToQuint d
                      = "  " +:+ qualifier d +:+ kindStr (kind d) +:+ " _unnamed" +:+ rest)
  /\ (forall d : VisualDeclaration,
         name d <> "" ->
         exists rest, declToQuint d
                      = "  " +:+ qualifier d +:+ kindStr (kind d) +:+ " " +:+ name d
                        +:+ rest)
  /\ (forall d : VisualDeclaration,
         name d = "" -> declToQuint d = declToQuint (withName d "_unnamed"))
  /\ declsToQuint "" [unnamedVar] = "module Unnamed {" +:+ nl +:+ "  var _unnamed: int" +:+ nl +:+ "}"
  /\ declsToQuint "Bank" [unnamedInit]
     = "module Bank {" +:+ nl +:+ "  action _unnamed = x' = 0" +:+ nl +:+ nl
       +:+ "  action init = " +:+ nl +:+ "}".
Proof.
  split.
  { destruct decls as [|d ds]; [reflexivity|].
    rewrite declsToQuint_cons, sort_byPriority. unfold envelope, moduleBody.
    now rewrite !app_assoc_s. }
  split; [reflexivity|]. split; [apply orElse_nonempty|].
  split; [reflexivity|]. split; [reflexivity|].
  split.
  { intros d Hn. destruct (declToQuint_heading d) as [rest ->].
    unfold shownName. rewrite Hn. exists rest. reflexivity. }
  split.
  { intros d Hn. destruct (declToQuint_heading d) as [rest ->].
    unfold shownName. rewrite (orElse_nonempty _ _ Hn). now exists rest. }
  split.
  { intros [i k n t p b r pu] Hn; simpl in Hn; subst n.
    unfold declToQuint, withName; simpl. destruct k; reflexivity. }
  split; reflexivity.
Qed.

(** *** Kind priority and stability *)

Lemma ofKind_ofKind_same k l : ofKind k (ofKind k l) = ofKind k l.
Proof.
  unfold ofKind. induction l as [|d l IH]; simpl; [reflexivity|].
  destruct (isKind k d) eqn:E; simpl; [rewrite E; now f_equal|exact IH].
Qed.

Lemma ofKind_ofKind_other k k' l : k <> k' -> ofKind k (ofKind k' l) = [].
Proof.
  intros Hne. unfold ofKind. induction l as [|d l IH]; simpl; [reflexivity|].
  destruct (isKind k' d) eqn:E; simpl; [|exact IH].
  destruct (isKind k d) eqn:E'; [|exact IH].
  unfold isKind in *. apply kind_eqb_eq in E, E'. congruence.
Qed.

Lemma ofKind_app k l1 l2 : ofKind k (l1 ++ l2) = ofKind k l1 ++ ofKind k l2.
Proof. apply List.filter_app. Qed.

Lemma ofKind_byPriority k decls : ofKind k (byPriority decls) = ofKind k decls.
Proof.
  unfold byPriority. rewrite !ofKind_app.
  destruct k;
    rewrite ofKind_ofKind_same, !ofKind_ofKind_other by discriminate;
    now rewrite ?List.app_nil_r.
Qed.

Lemma insertSorted_sorted d l :
  Sorted kindLe l -> Sorted kindLe (insertSorted compareKind d l).
Proof.
  induction 1 as [|y l Hs IH Hhd]; simpl.
  - repeat constructor.
  - unfold compareKind at 1. destruct (Z.leb_spec (KIND_ORDER (kind d) - KIND_ORDER (kind y)) 0).
    + constructor; [now constructor|]. constructor. unfold kindLe. lia.
    + constructor; [exact IH|].
      destruct l as [|z l]; simpl.
      * constructor. unfold kindLe. lia.
      * unfold compareKind at 1.
        destruct (Z.leb_spec (KIND_ORDER (kind d) - KIND_ORDER (kind z)) 0);
          constructor; [unfold kindLe; lia|now inversion Hhd].
Qed.

Lemma sort_sorted decls : StronglySorted kindLe (sort compareKind decls).
Proof.
  apply Sorted_StronglySorted.
  - intros a b c; unfold kindLe; lia.
  - induction decls as [|d l IH]; simpl; [constructor|now apply insertSorted_sorted].
Qed.

(** C2: the rendered declarations come in the kind-priority order type,
    const, var, val, def, action, assume, whatever the insertion order, and
    the declarations of one kind keep their collection order. *)
Theorem declsToQuint_kind_priority
    (moduleName : string) (d : VisualDeclaration) (decls : list VisualDeclaration) :
  sort compareKind decls = byPriority decls
  /\ declsToQuint moduleName (d :: decls)
     = envelope moduleName
         (join (nl +:+ nl)
            (map declToQuint (byPriority (d :: decls))
             ++ generateCombinedActions (d :: decls)))
  /\ StronglySorted kindLe (sort compareKind decls)
  /\ (forall k : DeclKind, ofKind k (sort compareKind decls) = ofKind k decls).
Proof.
  split; [apply sort_byPriority|].
  split; [now rewrite declsToQuint_cons, sort_byPriority|].
  split; [apply sort_sorted|].
  intros k. rewrite sort_byPriority. apply ofKind_byPriority.
Qed.

(** *** Insertion order *)







(** *** Bodies of functions and actions *)

Lemma trimStart_blank l : blank l = true -> trimStart l = "".
Proof.
  induction l as [|c r IH]; simpl; [reflexivity|].
  destruct (isWhiteSpace c); simpl; [exact IH|discriminate].
Qed.

Lemma trimStart_not_blank l :
  blank l = false ->
  exists c r, trimStart l = String c r /\ isWhiteSpace c = false.
Proof.
  induction l as [|c r IH]; simpl; [discriminate|].
  destruct (isWhiteSpace c) eqn:E; simpl; [exact IH|].
  intros _. now exists c, r.
Qed.
























(** *** Synthesized initializer *)

Lemma hasExplicit_false nm decls a :
  hasExplicit nm decls = false -> In a decls -> isAction a = true -> name a <> nm.
Proof.
  unfold hasExplicit. intros Hex Hin Hact Hnm.
  assert (existsb (fun d => String.eqb (name d) nm && isAction d) decls = true) as E.
  { apply List.existsb_exists. exists a. split; [exact Hin|].
    rewrite Hact, Hnm, String.eqb_refl. reflexivity. }
  congruence.
Qed.

Lemma initActions_In decls a :
  In a (initActions decls) -> In a decls /\ isAction a = true /\ role a = Some RInit.
Proof.
  unfold initActions. intros H. apply List.filter_In in H as [Hin H].
  apply andb_true_iff in H as [Hr Ha]. repeat split; try assumption.
  destruct (role a) as [[]|]; simpl in Hr; congruence.
Qed.

Lemma stepActions_In decls a :
  In a (stepActions decls) -> In a decls /\ isAction a = true /\ role a = Some RStep.
Proof.
  unfold stepActions. intros H. apply List.filter_In in H as [Hin H].
  apply andb_true_iff in H as [Hr Ha]. repeat split; try assumption.
  destruct (role a) as [[]|]; simpl in Hr; congruence.
Qed.

Lemma initExtra_form decls :
  initExtra decls
  = if needsInit decls then ["  action init = " +:+ initRhs decls] else [].
Proof.
  unfold initExtra, initRhs. destruct (needsInit decls); [|reflexivity].
  destruct (initActions decls) as [|a [|b l]]; reflexivity.
Qed.

Lemma stepExtra_form decls :
  exists rhs, stepExtra decls
              = if needsStep decls then ["  action step = " +:+ rhs] else [].
Proof.
  unfold stepExtra. destruct (needsStep decls); [|now exists ""].
  destruct (collectUniqueParams (stepActions decls)); eexists; reflexivity.
Qed.

Lemma runExtra_form decls :
  exists rhs, runExtra decls
              = if hasInit decls && hasStep decls then ["  run " +:+ rhs] else [].
Proof.
  unfold runExtra. destruct (hasInit decls && hasStep decls); [|now exists ""].
  destruct (invariants decls); eexists; reflexivity.
Qed.

Lemma stepExtra_not_init decls : Forall (fun s => isInitDef s = false) (stepExtra decls).
Proof.
  destruct (stepExtra_form decls) as [rhs ->].
  destruct (needsStep decls); repeat constructor.
Qed.

Lemma runExtra_not_init decls : Forall (fun s => isInitDef s = false) (runExtra decls).
Proof.
  destruct (runExtra_form decls) as [rhs ->].
  destruct (hasInit decls && hasStep decls); repeat constructor.
Qed.

Lemma init_synthesized_iff decls :
  (exists s, In s (generateCombinedActions decls) /\ isInitDef s = true)
  <-> needsInit decls = true.
Proof.
  unfold generateCombinedActions. split.
  - intros (s & Hin & Hs).
    apply List.in_app_or in Hin as [Hin|Hin].
    + rewrite initExtra_form in Hin. now destruct (needsInit decls).
    + apply List.in_app_or in Hin.
      pose proof (stepExtra_not_init decls) as H1.
      pose proof (runExtra_not_init decls) as H2.
      rewrite List.Forall_forall in H1, H2.
      destruct Hin as [Hin|Hin]; [apply H1 in Hin|apply H2 in Hin]; congruence.
  - intros Hn. exists ("  action init = " +:+ initRhs decls). split; [|reflexivity].
    apply List.in_or_app. left. rewrite initExtra_form, Hn. now left.
Qed.

Lemma needsInit_iff decls :
  needsInit decls = true
  <-> hasExplicit "init" decls = false
      /\ ((exists a, initActions decls = [a] /\ name a <> "init")
          \/ (1 < length (initActions decls))%nat).
Proof.
  unfold needsInit, needsCombined. rewrite andb_true_iff, negb_true_iff.
  split; intros [He H]; (split; [exact He|]).
  - destruct (initActions decls) as [|a [|b l]]; [discriminate| |right; simpl; lia].
    left. exists a. split; [reflexivity|].
    apply negb_true_iff in H. now apply String.eqb_neq.
  - destruct H as [(a & -> & Hn)|H].
    + apply negb_true_iff. now apply String.eqb_neq.
    + destruct (initActions decls) as [|a [|b l]]; simpl in H; [lia|lia|reflexivity].
Qed.

Lemma carriesInit_iff d : role_is RInit (role d) && isAction d = true <-> carriesInit d.
Proof.
  unfold carriesInit, isAction. rewrite andb_true_iff, kind_eqb_eq.
  destruct (role d) as [[]|]; cbn [role_is]; split; intros [H1 H2];
    try discriminate; now split.
Qed.

Lemma initActions_selected decls : Selected carriesInit decls (initActions decls).
Proof.
  unfold initActions. induction decls as [|d l IH]; cbn [List.filter]; [constructor|].
  destruct (role_is RInit (role d) && isAction d) eqn:E.
  - apply Selected_keep; [now apply carriesInit_iff|exact IH].
  - apply Selected_drop; [|exact IH]. intros H. apply carriesInit_iff in H. congruence.
Qed.

Lemma Selected_unique {A} (P : A -> Prop) l l1 l2 :
  Selected P l l1 -> Selected P l l2 -> l1 = l2.
Proof.
  intros H1. revert l2. induction H1 as [|x l l' Hx _ IH|x l l' Hx _ IH]; intros l2 H2;
    inversion H2; subst; try contradiction; try reflexivity.
  - f_equal. now apply IH.
  - now apply IH.
Qed.

Lemma hasExplicit_iff nm decls : hasExplicit nm decls = true <-> namedAction nm decls.
Proof.
  unfold hasExplicit, namedAction, isAction. rewrite List.existsb_exists.
  split; intros (d & Hin & H); exists d; (split; [exact Hin|]).
  - apply andb_true_iff in H as [Hn Hk]. apply String.eqb_eq in Hn.
    apply kind_eqb_eq in Hk. tauto.
  - destruct H as [Hk Hn]. rewrite Hk, Hn, String.eqb_refl. reflexivity.
Qed.

Lemma hasExplicit_not nm decls : hasExplicit nm decls = false <-> ~ namedAction nm decls.
Proof.
  rewrite <- hasExplicit_iff. destruct (hasExplicit nm decls); split; intros H;
    try reflexivity; try discriminate; try (intros E; discriminate).
  now destruct H.
Qed.

Lemma generateCombinedActions_init decls :
  exists rest,
    generateCombinedActions decls
    = (if needsInit decls then ["  action init = " +:+ initRhs decls] else []) ++ rest
    /\ Forall (fun s => isInitDef s = false) rest.
Proof.
  exists (stepExtra decls ++ runExtra decls). unfold generateCombinedActions.
  rewrite initExtra_form. split; [reflexivity|].
  apply List.Forall_app. split; [apply stepExtra_not_init|apply runExtra_not_init].
Qed.

(** C5: the actions that carry the init role are taken in collection
    order; an initializer is synthesized exactly when no action of the
    collection is named [init] and either one action carries the init role
    (a forwarding [action init = <name>]; its name is not [init] then) or
    several carry it (an [all { }] block of their names); it is the first
    synthesized fragment and the only one that defines [init]; when an
    action is named [init], no fragment defines [init], and the single
    action named [init] is rendered once. *)
Theorem initializer_synthesis (moduleName : string) (decls : list VisualDeclaration) :
  Selected carriesInit decls (initActions decls)
  /\ (forall acts, Selected carriesInit decls acts ->
        ((exists s, In s (generateCombinedActions decls) /\ isInitDef s = true)
         <-> ~ namedAction "init" decls
             /\ ((exists a, acts = [a] /\ name a <> "init") \/ (1 < length acts)%nat))
        /\ (forall a, ~ namedAction "init" decls -> acts = [a] ->
              name a <> "init"
              /\ exists rest,
                   generateCombinedActions decls = ("  action init = " +:+ name a) :: rest
                   /\ Forall (fun s => isInitDef s = false) rest)
        /\ (~ namedAction "init" decls -> (1 < length acts)%nat ->
              exists rest,
                generateCombinedActions decls
                = ("  action init = all {" +:+ nl
                   +:+ join ("," +:+ nl) (map (fun a => "    " +:+ name a) acts)
                   +:+ "," +:+ nl +:+ "  }") :: rest
                /\ Forall (fun s => isInitDef s = false) rest))
  /\ (namedAction "init" decls ->
      Forall (fun s => isInitDef s = false) (generateCombinedActions decls))
  /\ (forall d, kind d = KAction -> name d = "init" ->
        declsToQuint moduleName [d]
        = envelope moduleName
            (join (nl +:+ nl) (declToQuint d :: stepExtra [d] ++ runExtra [d]))
        /\ Forall (fun s => isInitDef s = false) (stepExtra [d] ++ runExtra [d]))
  /\ generateCombinedActions [setup] = ["  action init = setup"]
  /\ generateCombinedActions [setup; seed]
     = ["  action init = all {" +:+ nl +:+ "    setup," +:+ nl +:+ "    seed," +:+ nl
        +:+ "  }"]
  /\ generateCombinedActions [explicitInit] = []
  /\ declsToQuint "Bank" [explicitInit]
     = "module Bank {" +:+ nl +:+ "  action init = true" +:+ nl +:+ "}".
Proof.
  split; [apply initActions_selected|]. split.
  { intros acts Hsel.
    rewrite (Selected_unique _ _ _ _ Hsel (initActions_selected decls)).
    destruct (generateCombinedActions_init decls) as (rest & Hgen & Hrest).
    split; [|split].
    - rewrite init_synthesized_iff, needsInit_iff, hasExplicit_not. reflexivity.
    - intros a He Ha.
      assert (name a <> "init") as Hn.
      { apply hasExplicit_not in He.
        assert (In a (initActions decls)) as Hin by (rewrite Ha; now left).
        apply initActions_In in Hin as (Hin & Hact & _).
        exact (hasExplicit_false "init" decls a He Hin Hact). }
      split; [exact Hn|].
      assert (needsInit decls = true) as Hneeds.
      { apply needsInit_iff. split; [now apply hasExplicit_not|]. left. now exists a. }
      exists rest. split; [|exact Hrest].
      rewrite Hgen, Hneeds. unfold initRhs. now rewrite Ha.
    - intros He Hlen.
      assert (needsInit decls = true) as Hneeds.
      { apply needsInit_iff. split; [now apply hasExplicit_not|]. now right. }
      exists rest. split; [|exact Hrest].
      rewrite Hgen, Hneeds. unfold initRhs.
      destruct (initActions decls) as [|a [|b l]]; simpl in Hlen; [lia|lia|reflexivity]. }
  split.
  { intros He. apply hasExplicit_iff in He.
    destruct (generateCombinedActions_init decls) as (rest & -> & Hrest).
    unfold needsInit. now rewrite He. }
  split.
  { intros d Hk Hn.
    assert (initExtra [d] = []) as Hinit.
    { rewrite initExtra_form. unfold needsInit, hasExplicit, isAction. simpl.
      rewrite Hk, Hn. reflexivity. }
    split.
    + rewrite declsToQuint_cons. unfold generateCombinedActions. rewrite Hinit.
      reflexivity.
    + apply List.Forall_app. split; [apply stepExtra_not_init|apply runExtra_not_init]. }
  repeat split.
Qed.

(** *** Synthesized run *)

Lemma needsCombined_nonempty nm decls acts :
  hasExplicit nm decls = false ->
  (forall a, In a acts -> In a decls /\ isAction a = true) ->
  needsCombined nm acts = (0 <? length acts)%nat.
Proof.
  intros He Hsub. destruct acts as [|a [|b l]]; try reflexivity.
  simpl. apply negb_true_iff, String.eqb_neq.
  destruct (Hsub a (or_introl eq_refl)) as [Hin Ha].
  exact (hasExplicit_false nm decls a He Hin Ha).
Qed.

Lemma hasInit_present decls : hasInit decls = true <-> initPresent decls.
Proof.
  unfold hasInit, initPresent, needsInit.
  destruct (hasExplicit "init" decls) eqn:He.
  - rewrite orb_true_r. tauto.
  - rewrite orb_false_r. simpl.
    rewrite (needsCombined_nonempty "init" decls (initActions decls) He).
    + split; [now right|]. now intros [H|H].
    + intros a Ha. apply initActions_In in Ha. tauto.
Qed.

Lemma hasStep_present decls : hasStep decls = true <-> stepPresent decls.
Proof.
  unfold hasStep, stepPresent, needsStep.
  destruct (hasExplicit "step" decls) eqn:He.
  - rewrite orb_true_r. tauto.
  - rewrite orb_false_r. simpl.
    rewrite (needsCombined_nonempty "step" decls (stepActions decls) He).
    + split; [now right|]. now intros [H|H].
    + intros a Ha. apply stepActions_In in Ha. tauto.
Qed.

Lemma invariants_In decls d : In d (invariants decls) <-> In d decls /\ isInvariant d.
Proof.
  unfold invariants, isInvariant, isKind, truthy. rewrite List.filter_In.
  rewrite !andb_true_iff, orb_true_iff, negb_true_iff, String.eqb_neq, !kind_eqb_eq.
  assert (role_is RInvariant (role d) = true <-> role d = Some RInvariant) as ->.
  { destruct (role d) as [[]|]; simpl; split; congruence. }
  tauto.
Qed.

Lemma run_appended_iff decls :
  (exists s, In s (generateCombinedActions decls) /\ isRun s = true)
  <-> hasInit decls && hasStep decls = true.
Proof.
  unfold generateCombinedActions.
  destruct (runExtra_form decls) as [rhs Hrun].
  split.
  - intros (s & Hin & Hs). destruct (hasInit decls && hasStep decls); [reflexivity|].
    rewrite Hrun, List.app_nil_r in Hin. apply List.in_app_or in Hin as [Hin|Hin].
    + rewrite initExtra_form in Hin.
      destruct (needsInit decls); [|destruct Hin].
      destruct Hin as [<-|[]]. discriminate Hs.
    + destruct (stepExtra_form decls) as [r Hstep]. rewrite Hstep in Hin.
      destruct (needsStep decls); [|destruct Hin].
      destruct Hin as [<-|[]]. discriminate Hs.
  - intros Hb. rewrite Hrun, Hb. exists ("  run " +:+ rhs). split; [|reflexivity].
    apply List.in_or_app. right. apply List.in_or_app. right. now left.
Qed.

(** C7: a run is appended exactly when an initializer and a step action
    are both present, written by the user or synthesized; with at least one
    named [val] or [def] of invariant role it is [invariantTest], expecting
    their names joined by [and] in each of 20 repetitions; with none it is
    [simulationTest], without an [expect]. *)
Theorem run_synthesis (decls : list VisualDeclaration) :
  ((exists s, In s (generateCombinedActions decls) /\ isRun s = true)
   <-> initPresent decls /\ stepPresent decls)
  /\ (forall d, In d (invariants decls) <-> In d decls /\ isInvariant d)
  /\ (initPresent decls -> stepPresent decls -> invariants decls <> [] ->
      runExtra decls
      = ["  run invariantTest = init.then(20.reps(_ => step.expect("
         +:+ join " and " (map name (invariants decls)) +:+ ")))"])
  /\ (initPresent decls -> stepPresent decls -> invariants decls = [] ->
      runExtra decls = ["  run simulationTest = init.then(20.reps(_ => step))"])
  /\ generateCombinedActions decls = initExtra decls ++ stepExtra decls ++ runExtra decls.
Proof.
  split; [|split; [|split; [|split]]].
  - rewrite run_appended_iff, andb_true_iff, hasInit_present, hasStep_present. tauto.
  - intros d. apply invariants_In.
  - intros Hi Hs Hinv. apply hasInit_present in Hi. apply hasStep_present in Hs.
    unfold runExtra. rewrite Hi, Hs. simpl.
    destruct (invariants decls); [congruence|reflexivity].
  - intros Hi Hs Hinv. apply hasInit_present in Hi. apply hasStep_present in Hs.
    unfold runExtra. now rewrite Hi, Hs, Hinv.
  - reflexivity.
Qed.

(** The two examples of the specification. *)
Example run_with_invariant :
  runExtra [explicitInit; explicitStep; safe]
  = ["  run invariantTest = init.then(20.reps(_ => step.expect(safe)))"].
Proof. reflexivity. Qed.

Example run_without_invariant :
  runExtra [explicitInit; explicitStep]
  = ["  run simulationTest = init.then(20.reps(_ => step))"].
Proof. reflexivity. Qed.

(** *** Synthesized step *)

Lemma omap_set_fresh {V} (m : OMap.t V) k v :
  OMap.has m k = false -> OMap.set m k v = m ++ [(k, v)].
Proof.
  induction m as [|[k' v'] m IH]; simpl; [reflexivity|].
  intros H. apply orb_false_iff in H as [H1 H2]. rewrite H1. now rewrite IH.
Qed.

Lemma omap_has_app {V} (m1 m2 : OMap.t V) k :
  OMap.has (m1 ++ m2) k = OMap.has m1 k || OMap.has m2 k.
Proof. apply List.existsb_app. Qed.

Lemma collectPart_enter seen part :
  collectPart seen part
  = if truthy (fst (paramPair part)) then enter seen (paramPair part) else seen.
Proof.
  unfold collectPart, paramPair, enter. simpl.
  destruct (truthy (hd "" (map trim (split ":" part)))); simpl; [|reflexivity].
  destruct (OMap.has seen (hd "" (map trim (split ":" part)))) eqn:E; simpl;
    [reflexivity|].
  rewrite (omap_set_fresh _ _ _ E). reflexivity.
Qed.

Lemma fold_collectPart parts seen :
  fold_left collectPart parts seen
  = fold_left enter (List.filter (fun p => truthy (fst p)) (map paramPair parts)) seen.
Proof.
  revert seen.
  induction parts as [|part parts IH]; intros seen;
    cbn [fold_left map List.filter]; [reflexivity|].
  rewrite collectPart_enter.
  destruct (truthy (fst (paramPair part))); cbn [fold_left]; apply IH.
Qed.

Lemma collectAction_enter seen a :
  collectAction seen a = fold_left enter (paramsOf a) seen.
Proof.
  unfold collectAction, paramsOf.
  destruct (truthy (trim (params a))); simpl; [apply fold_collectPart|reflexivity].
Qed.

Lemma fold_collectAction acts seen :
  fold_left collectAction acts seen = fold_left enter (declaredParams acts) seen.
Proof.
  revert seen. induction acts as [|a acts IH]; intros seen; simpl; [reflexivity|].
  rewrite List.fold_left_app, <- collectAction_enter. apply IH.
Qed.

Lemma filter_comm {A} (f g : A -> bool) l :
  List.filter f (List.filter g l) = List.filter g (List.filter f l).
Proof.
  induction l as [|x l IH]; simpl; [reflexivity|].
  destruct (f x) eqn:Ef, (g x) eqn:Eg; simpl; rewrite ?Ef, ?Eg, IH; reflexivity.
Qed.

Lemma filter_filter_and {A} (f g : A -> bool) l :
  List.filter f (List.filter g l) = List.filter (fun x => g x && f x) l.
Proof.
  induction l as [|x l IH]; simpl; [reflexivity|].
  destruct (g x); simpl; [destruct (f x)|]; now rewrite IH.
Qed.

(** A filter on names commutes with keeping first occurrences. *)
Lemma firstOccurrences_filter (f : string * string -> bool) l :
  (forall p q, fst p = fst q -> f p = f q) ->
  firstOccurrences (List.filter f l) = List.filter f (firstOccurrences l).
Proof.
  intros Hf. induction l as [|p r IH]; simpl; [reflexivity|].
  destruct (f p) eqn:E; simpl.
  - rewrite IH. f_equal. apply filter_comm.
  - rewrite IH, filter_filter_and. apply List.filter_ext_in. intros q _.
    unfold otherName. destruct (String.eqb_spec (fst q) (fst p)) as [Heq|Hne]; simpl.
    + rewrite (Hf q p Heq). exact E.
    + reflexivity.
Qed.

Lemma fold_enter l seen :
  fold_left enter l seen
  = seen ++ firstOccurrences (List.filter (fun p => negb (OMap.has seen (fst p))) l).
Proof.
  revert seen. induction l as [|p r IH]; intros seen; simpl.
  - now rewrite List.app_nil_r.
  - unfold enter at 2. destruct (OMap.has seen (fst p)) eqn:E; simpl; [apply IH|].
    rewrite IH, <- List.app_assoc. simpl. do 2 f_equal.
    rewrite <- firstOccurrences_filter
      by (intros a b Hab; unfold otherName; now rewrite Hab).
    f_equal. rewrite filter_filter_and. apply List.filter_ext. intros q.
    rewrite omap_has_app. simpl. rewrite orb_false_r, negb_orb.
    unfold otherName. now rewrite String.eqb_sym.
Qed.

Lemma collectUniqueParams_first acts :
  collectUniqueParams acts = firstOccurrences (declaredParams acts).
Proof.
  unfold collectUniqueParams. rewrite fold_collectAction, fold_enter. simpl.
  f_equal. induction (declaredParams acts) as [|p r IH]; simpl; now f_equal.
Qed.

Lemma firstOccurrences_In l q : In q (firstOccurrences l) -> In q l.
Proof.
  induction l as [|p r IH]; simpl; [tauto|].
  intros [H|H]; [now left|]. apply List.filter_In in H as [H _]. right. now apply IH.
Qed.

Lemma firstOccurrences_names l n :
  In n (map fst (firstOccurrences l)) <-> In n (map fst l).
Proof.
  induction l as [|p r IH]; simpl; [tauto|].
  split.
  - intros [H|H]; [now left|]. right. apply IH.
    apply List.in_map_iff in H as (q & <- & Hq).
    apply List.filter_In in Hq as [Hq _]. now apply List.in_map.
  - intros [H|H]; [now left|].
    destruct (String.eqb_spec n (fst p)) as [->|Hne]; [now left|]. right.
    apply IH, List.in_map_iff in H as (q & <- & Hq).
    apply List.in_map, List.filter_In. split; [exact Hq|].
    unfold otherName. apply negb_true_iff. now apply String.eqb_neq.
Qed.

Lemma firstOccurrences_NoDup l : List.NoDup (map fst (firstOccurrences l)).
Proof.
  induction l as [|p r IH]; simpl; constructor.
  - intros H. apply List.in_map_iff in H as (q & Hq & Hin).
    apply List.filter_In in Hin as [_ Hin]. unfold otherName in Hin.
    rewrite Hq, String.eqb_refl in Hin. discriminate.
  - clear -IH. induction (firstOccurrences r) as [|q l IHl]; simpl; [constructor|].
    inversion IH as [|? ? Hnot Hnd]; subst.
    destruct (otherName p q); simpl; [|now apply IHl].
    constructor; [|now apply IHl].
    intros H. apply Hnot. apply List.in_map_iff in H as (q' & Hq' & Hin).
    apply List.filter_In in Hin as [Hin _]. rewrite <- Hq'. now apply List.in_map.
Qed.


Lemma paramPair_name part : fst (paramPair part) = trim (hd "" (split ":" part)).
Proof. unfold paramPair. now destruct (split ":" part). Qed.

Lemma parseParamNames_paramsOf a : parseParamNames (params a) = map fst (paramsOf a).
Proof.
  unfold parseParamNames, paramsOf.
  destruct (truthy (trim (params a))); cbn [negb]; [|reflexivity].
  induction (split "," (params a)) as [|part parts IH];
    cbn [map List.filter]; [reflexivity|].
  rewrite paramPair_name.
  destruct (truthy (trim (hd "" (split ":" part)))); cbn [map];
    rewrite ?paramPair_name, IH; reflexivity.
Qed.

Lemma stepBinding_domain p :
  stepBinding p = "    nondet " +:+ fst p +:+ " = " +:+ domainOf (snd p) +:+ ".oneOf()".
Proof. reflexivity. Qed.



End SpecProps.

(** ** Properties of the store *)

Module StoreProps.
Import Str Store StoreReference.

(** *** resizeGroups *)

Lemma grouped_default G nodes k :
  truthy k && bool_decide (k ∈ G) = true ->
  default [] (grouped G nodes k) = List.filter (childOf k) nodes.
Proof.
  intros H. unfold grouped. rewrite H. now destruct (List.filter (childOf k) nodes).
Qed.

Lemma grouped_snoc_other G nodes n k :
  childOf k n = false -> grouped G (nodes ++ [n]) k = grouped G nodes k.
Proof.
  intros H. unfold grouped. rewrite List.filter_app. cbn [List.filter].
  now rewrite H, List.app_nil_r.
Qed.

Lemma childOf_parent k n p : parentId n = Some p -> childOf k n = String.eqb p k.
Proof. unfold childOf. now intros ->. Qed.

Lemma fold_addChild G nodes k :
  fold_left (addChild G) nodes ∅ !! k = grouped G nodes k.
Proof.
  induction nodes as [|n nodes IH] using rev_ind.
  - cbn [fold_left]. rewrite lookup_empty. unfold grouped.
    now destruct (truthy k && bool_decide (k ∈ G)).
  - rewrite List.fold_left_app. cbn [fold_left].
    set (m := fold_left (addChild G) nodes ∅) in *.
    unfold addChild. destruct (parentId n) as [p|] eqn:Ep.
    + destruct (truthy p && bool_decide (p ∈ G)) eqn:Ec.
      * destruct (decide (p = k)) as [->|Hne].
        -- rewrite lookup_insert_eq, IH, (grouped_default _ _ _ Ec).
           unfold grouped. rewrite Ec, List.filter_app. cbn [List.filter].
           rewrite (childOf_parent k n k Ep), String.eqb_refl.
           now destruct (List.filter (childOf k) nodes).
        -- rewrite lookup_insert_ne by exact Hne. rewrite IH.
           symmetry. apply grouped_snoc_other. unfold childOf. rewrite Ep.
           now apply String.eqb_neq.
      * rewrite IH. destruct (decide (p = k)) as [->|Hne].
        -- unfold grouped. now rewrite Ec.
        -- symmetry. apply grouped_snoc_other. unfold childOf. rewrite Ep.
           now apply String.eqb_neq.
    + rewrite IH. symmetry. apply grouped_snoc_other. unfold childOf. now rewrite Ep.
Qed.

Lemma childrenByGroup_lookup nodes node :
  In node nodes -> isGroup node = true ->
  childrenByGroup nodes !! id node
  = match directChildren node nodes with [] => None | l => Some l end.
Proof.
  intros Hin Hg. unfold childrenByGroup. rewrite fold_addChild.
  unfold grouped, directChildren.
  assert (id node ∈ (list_to_set (map id (List.filter isGroup nodes)) : gset string)) as Hid.
  { apply elem_of_list_to_set, list_elem_of_In, List.in_map, List.filter_In. tauto. }
  rewrite (bool_decide_eq_true_2 _ Hid), andb_true_r.
  now destruct (truthy (id node)).
Qed.

Lemma fold_max_shift a c l :
  fold_right Z.max (Z.max a c) l = Z.max c (fold_right Z.max a l).
Proof. induction l as [|v l IH]; cbn [fold_right]; lia. Qed.

Lemma fold_extentStep children a b :
  fold_left extentStep children (a, b)
  = (fold_right Z.max a (map rightExtent children),
     fold_right Z.max b (map bottomExtent children)).
Proof.
  revert a b. induction children as [|c l IH]; intros a b; [reflexivity|].
  cbn [fold_left map fold_right]. unfold extentStep at 2. cbn [fst snd].
  rewrite IH, !fold_max_shift. reflexivity.
Qed.

Lemma maxExtents_maxOf0 children :
  maxExtents children
  = (maxOf0 (map rightExtent children), maxOf0 (map bottomExtent children)).
Proof. apply fold_extentStep. Qed.

Lemma withSize_same node w h :
  oldWidth node = Some w -> oldHeight node = Some h -> withSize node w h = node.
Proof.
  destruct node as [i t p pa m [[sw sh rest]|] d]; unfold oldWidth, oldHeight, withSize;
    cbn; intros Hw Hh; [now subst|discriminate].
Qed.

Lemma resizeNode_fitted nodes node :
  In node nodes -> resizeNode (childrenByGroup nodes) node = fitted nodes node.
Proof.
  intros Hin. unfold resizeNode, fitted.
  destruct (isGroup node) eqn:Hg; cbn [negb]; [|reflexivity].
  rewrite (childrenByGroup_lookup nodes node Hin Hg).
  destruct (directChildren node nodes) as [|c cs]; [reflexivity|].
  rewrite maxExtents_maxOf0. fold (fitWidth (c :: cs)) (fitHeight (c :: cs)).
  destruct (bool_decide (oldWidth node = Some (fitWidth (c :: cs)))) eqn:Ew;
    [|reflexivity].
  destruct (bool_decide (oldHeight node = Some (fitHeight (c :: cs)))) eqn:Eh;
    [|reflexivity].
  apply bool_decide_eq_true_1 in Ew, Eh. cbn [andb].
  symmetry. now apply withSize_same.
Qed.

Lemma resizeGroups_fitted nodes : resizeGroups nodes = map (fitted nodes) nodes.
Proof.
  unfold resizeGroups. destruct (List.filter isGroup nodes) as [|g gs] eqn:Hf.
  - rewrite <- (List.map_id nodes) at 1. apply List.map_ext_in. intros n Hn.
    unfold fitted. destruct (isGroup n) eqn:Hg; [|reflexivity].
    assert (In n (List.filter isGroup nodes)) as H by (apply List.filter_In; tauto).
    rewrite Hf in H. destruct H.
  - apply List.map_ext_in. intros n Hn. now apply resizeNode_fitted.
Qed.

Lemma maxOf0_spec l :
  0 <= maxOf0 l /\ Forall (fun v => v <= maxOf0 l) l /\ (maxOf0 l = 0 \/ In (maxOf0 l) l).
Proof.
  unfold maxOf0. induction l as [|v l (H0 & Hall & Hin)]; cbn [fold_right].
  - repeat split; [lia|constructor|now left].
  - split; [lia|]. split.
    + constructor; [lia|]. eapply List.Forall_impl; [|exact Hall].
      intros w Hw. cbn beta in Hw. lia.
    + destruct (Z.max_spec v (fold_right Z.max 0 l)) as [[_ ->]|[_ ->]].
      * destruct Hin as [Hin|Hin]; [now left|right; now right].
      * right. now left.
Qed.

(** C9, as the code has it: every group with at least one direct child
    gets the width [max(0, right extents) + 15] and the height
    [max(0, bottom extents) + 15 + 40], the maxima starting from 0; the
    node is returned as it is when its style has these two values already;
    groups without children and all other nodes are returned as they are. *)
Theorem resizeGroups_fit (nodes : list Node) :
  resizeGroups nodes = map (fitted nodes) nodes
  /\ (forall node, isGroup node = false -> fitted nodes node = node)
  /\ (forall node, directChildren node nodes = [] -> fitted nodes node = node)
  /\ (forall node, oldWidth node = Some (fitWidth (directChildren node nodes)) ->
                   oldHeight node = Some (fitHeight (directChildren node nodes)) ->
                   fitted nodes node = node)
  /\ (forall node, isGroup node = true -> directChildren node nodes <> [] ->
        fitted nodes node
        = withSize node (fitWidth (directChildren node nodes))
                        (fitHeight (directChildren node nodes))
        /\ oldWidth (fitted nodes node)
           = Some (maxOf0 (map rightExtent (directChildren node nodes)) + 15)
        /\ oldHeight (fitted nodes node)
           = Some (maxOf0 (map bottomExtent (directChildren node nodes)) + 15 + 40))
  /\ (forall l, 0 <= maxOf0 l /\ Forall (fun v => v <= maxOf0 l) l
                /\ (maxOf0 l = 0 \/ In (maxOf0 l) l)).
Proof.
  split; [apply resizeGroups_fitted|].
  split; [intros node Hg; unfold fitted; now rewrite Hg|].
  split; [intros node Hc; unfold fitted; rewrite Hc; now destruct (isGroup node)|].
  split.
  { intros node Hw Hh. unfold fitted. destruct (isGroup node); [|reflexivity].
    destruct (directChildren node nodes) as [|c cs]; [reflexivity|].
    now apply withSize_same. }
  split; [|apply maxOf0_spec].
  intros node Hg Hc. unfold fitted. rewrite Hg.
  destruct (directChildren node nodes) as [|c cs]; [congruence|].
  repeat split.
Qed.

(** C9 as stated fails: the only child of the group has the right extent
    -280 and the bottom extent -220, and the group is given the width 15
    and the height 55, not -265 and -165. *)
Lemma resizeGroups_fit_counterexample :
  directChildren lonelyGroup [lonelyGroup; strayChild] = [strayChild]
  /\ maximum (map rightExtent [strayChild]) = Some (-280)
  /\ maximum (map bottomExtent [strayChild]) = Some (-220)
  /\ resizeGroups [lonelyGroup; strayChild]
     = [withSize lonelyGroup 15 55; strayChild]
  /\ 15 <> -280 + GROUP_PADDING
  /\ 55 <> -220 + GROUP_PADDING + GROUP_BUTTON_AREA.
Proof.
  split; [reflexivity|]. split; [reflexivity|]. split; [reflexivity|].
  split; [now vm_compute|]. split; unfold GROUP_PADDING, GROUP_BUTTON_AREA; lia.
Qed.

(** *** resolveCollisions *)

Lemma withPosition_id n : withPosition n (position n) = n.
Proof. now destruct n. Qed.

Lemma displaced_refl m out : displacedOnlyMoved m out out.
Proof.
  split; [reflexivity|]. intros k n Hk. exists n.
  split; [exact Hk|]. split; [now rewrite withPosition_id|reflexivity].
Qed.

Lemma displaced_trans m o1 o2 o3 :
  displacedOnlyMoved m o1 o2 -> displacedOnlyMoved m o2 o3 -> displacedOnlyMoved m o1 o3.
Proof.
  intros [L12 H12] [L23 H23]. split; [congruence|].
  intros k n Hk. destruct (H12 k n Hk) as (n' & Hk' & Hp' & Hu').
  destruct (H23 k n' Hk') as (n'' & Hk'' & Hp'' & Hu'').
  exists n''. split; [exact Hk''|]. split.
  - rewrite Hp'', Hp'. reflexivity.
  - intros Hn. pose proof (Hu' Hn) as E. subst n'. now apply Hu''.
Qed.

Lemma displaced_insert m out i stopped p :
  out !! i = Some stopped -> id stopped ∈ m ->
  displacedOnlyMoved m out (<[i := withPosition stopped p]> out).
Proof.
  intros Hi Hm. split; [apply length_insert|].
  intros k n Hk. destruct (decide (i = k)) as [->|Hne].
  - exists (withPosition stopped p). rewrite Hi in Hk. injection Hk as <-.
    split; [apply list_lookup_insert_eq; now apply lookup_lt_Some in Hi|].
    split; [reflexivity|]. intros Hn. contradiction.
  - exists n. rewrite list_lookup_insert_ne by exact Hne.
    split; [exact Hk|]. split; [now rewrite withPosition_id|reflexivity].
Qed.

Lemma chooseStopped_cases aM bM ii jj :
  aM || bM = true ->
  (chooseStopped aM bM ii jj = (ii, jj) /\ aM = true /\ bM = false)
  \/ (chooseStopped aM bM ii jj = (jj, ii) /\ bM = true).
Proof. destruct aM, bM; cbn; intros H; try discriminate; tauto. Qed.

Lemma pairStep_skip m st ii jj a b :
  out st !! ii = Some a -> out st !! jj = Some b ->
  (id a ∉ m) /\ (id b ∉ m) \/ overlapX a b <= 0 \/ overlapY a b <= 0 ->
  pairStep m ii st jj = st.
Proof.
  intros Ha Hb H. unfold pairStep. rewrite Ha, Hb.
  destruct (negb (bool_decide (id a ∈ m)) && negb (bool_decide (id b ∈ m))) eqn:E;
    [reflexivity|].
  destruct H as [[H1 H2]|H].
  - rewrite (bool_decide_eq_false_2 _ H1), (bool_decide_eq_false_2 _ H2) in E.
    discriminate.
  - destruct (Z.leb_spec (overlapX a b) 0), (Z.leb_spec (overlapY a b) 0);
      cbn [orb]; try reflexivity. lia.
Qed.

Lemma pairStep_displaces m st ii jj a b :
  out st !! ii = Some a -> out st !! jj = Some b ->
  id a ∈ m \/ id b ∈ m -> 0 < overlapX a b -> 0 < overlapY a b ->
  exists stopI stopped blocker,
    ((stopI = ii /\ stopped = a /\ blocker = b /\ id b ∉ m)
     \/ (stopI = jj /\ stopped = b /\ blocker = a))
    /\ out st !! stopI = Some stopped
    /\ id stopped ∈ m
    /\ pairStep m ii st jj
       = mkLoop (<[stopI := withPosition stopped
                              (stopPosition (overlapX a b) (overlapY a b) stopped blocker)]>
                   (out st)) false true.
Proof.
  intros Ha Hb Hm Hx Hy. unfold pairStep. rewrite Ha, Hb.
  assert (bool_decide (id a ∈ m) || bool_decide (id b ∈ m) = true) as Hor.
  { destruct Hm as [Hm|Hm]; rewrite (bool_decide_eq_true_2 _ Hm);
      [reflexivity|apply orb_true_r]. }
  replace (negb (bool_decide (id a ∈ m)) && negb (bool_decide (id b ∈ m))) with false
    by (rewrite <- negb_orb, Hor; reflexivity).
  destruct (Z.leb_spec (overlapX a b) 0); [lia|].
  destruct (Z.leb_spec (overlapY a b) 0); [lia|]. cbn [orb].
  destruct (chooseStopped_cases _ _ ii jj Hor) as [(-> & Ea & Eb)|(-> & Eb)].
  - rewrite Hb, Ha. exists ii, a, b. split; [left|split; [exact Ha|split]].
    + repeat split. now apply bool_decide_eq_false_1 in Eb.
    + now apply bool_decide_eq_true_1 in Ea.
    + reflexivity.
  - rewrite Ha, Hb. exists jj, b, a. split; [right; tauto|split; [exact Hb|split]].
    + now apply bool_decide_eq_true_1 in Eb.
    + reflexivity.
Qed.

Lemma pairStep_displaced m st ii jj :
  displacedOnlyMoved m (out st) (out (pairStep m ii st jj)).
Proof.
  destruct (out st !! ii) as [a|] eqn:Ha;
    [|unfold pairStep; rewrite Ha; apply displaced_refl].
  destruct (out st !! jj) as [b|] eqn:Hb;
    [|unfold pairStep; rewrite Ha, Hb; apply displaced_refl].
  destruct (decide (id a ∈ m \/ id b ∈ m)) as [Hm|Hm].
  - destruct (Z.ltb_spec 0 (overlapX a b)) as [Hx|Hx];
      [|rewrite (pairStep_skip m st ii jj a b Ha Hb) by lia; apply displaced_refl].
    destruct (Z.ltb_spec 0 (overlapY a b)) as [Hy|Hy];
      [|rewrite (pairStep_skip m st ii jj a b Ha Hb) by lia; apply displaced_refl].
    destruct (pairStep_displaces m st ii jj a b Ha Hb Hm Hx Hy)
      as (stopI & stopped & blocker & _ & Hs & Hin & ->).
    cbn [out]. now apply displaced_insert.
  - rewrite (pairStep_skip m st ii jj a b Ha Hb) by tauto. apply displaced_refl.
Qed.

Lemma fold_pairStep_displaced m ii rest st :
  displacedOnlyMoved m (out st) (out (fold_left (pairStep m ii) rest st)).
Proof.
  revert st. induction rest as [|jj rest IH]; intros st; cbn [fold_left];
    [apply displaced_refl|].
  eapply displaced_trans; [apply pairStep_displaced|apply IH].
Qed.

Lemma pairLoops_displaced m idxs st :
  displacedOnlyMoved m (out st) (out (pairLoops m idxs st)).
Proof.
  revert st. induction idxs as [|ii rest IH]; intros st; cbn [pairLoops];
    [apply displaced_refl|].
  eapply displaced_trans; [apply fold_pairStep_displaced|apply IH].
Qed.

Lemma onePass_displaced m idxs st :
  displacedOnlyMoved m (out st) (out (onePass m idxs st)).
Proof. unfold onePass. apply (pairLoops_displaced m idxs (mkLoop (out st) true _)). Qed.

Lemma passes_displaced m n idxs st :
  displacedOnlyMoved m (out st) (out (passes m n idxs st)).
Proof.
  revert st. induction n as [|n IH]; intros st; cbn [passes]; [apply displaced_refl|].
  destruct (settled (onePass m idxs st)); [apply onePass_displaced|].
  eapply displaced_trans; [apply onePass_displaced|apply IH].
Qed.

Lemma groups_displaced m groups st :
  displacedOnlyMoved m (out st) (out (fold_left (groupStep m) groups st)).
Proof.
  revert st. induction groups as [|g groups IH]; intros st; cbn [fold_left];
    [apply displaced_refl|].
  eapply displaced_trans; [|apply IH].
  unfold groupStep. destruct (length (snd g) <? 2)%nat;
    [apply displaced_refl|apply passes_displaced].
Qed.

Lemma resolveCollisions_displaced nodes m :
  displacedOnlyMoved m nodes (resolveCollisions nodes m).
Proof.
  unfold resolveCollisions. destruct (bool_decide (size m = 0%nat));
    [apply displaced_refl|].
  destruct (didChange _); [|apply displaced_refl].
  apply (groups_displaced m (byParent nodes) (mkLoop nodes true false)).
Qed.











(** The sibling groups. *)

Lemma omap_get_set_eq {V} (m : OMap.t V) k v : OMap.get (OMap.set m k v) k = Some v.
Proof.
  unfold OMap.get. induction m as [|[k' v'] m IH]; cbn [OMap.set List.find fst snd].
  - now rewrite String.eqb_refl.
  - destruct (String.eqb_spec k' k) as [->|Hne]; cbn [List.find fst snd].
    + now rewrite String.eqb_refl.
    + destruct (String.eqb_spec k' k); [contradiction|exact IH].
Qed.

Lemma omap_get_set_ne {V} (m : OMap.t V) k k' v :
  k <> k' -> OMap.get (OMap.set m k v) k' = OMap.get m k'.
Proof.
  intros Hne. unfold OMap.get.
  induction m as [|[k0 v0] m IH]; cbn [OMap.set List.find fst snd].
  - destruct (String.eqb_spec k k'); [contradiction|reflexivity].
  - destruct (String.eqb_spec k0 k) as [->|Hne0]; cbn [List.find fst snd].
    + destruct (String.eqb_spec k k'); [contradiction|reflexivity].
    + destruct (String.eqb_spec k0 k'); [reflexivity|exact IH].
Qed.

Lemma omap_set_keys {V} (m : OMap.t V) k v :
  map fst (OMap.set m k v) = if OMap.has m k then map fst m else map fst m ++ [k].
Proof.
  unfold OMap.has. induction m as [|[k' v'] m IH]; cbn [OMap.set map existsb fst];
    [reflexivity|].
  destruct (String.eqb_spec k' k) as [->|Hne]; cbn [map fst orb]; [reflexivity|].
  rewrite IH. now destruct (existsb _ m).
Qed.

Lemma omap_has_In {V} (m : OMap.t V) k : OMap.has m k = true <-> In k (map fst m).
Proof.
  unfold OMap.has. rewrite List.existsb_exists, List.in_map_iff.
  split; intros ([k' v] & H1 & H2); exists (k', v); cbn [fst] in *.
  - apply String.eqb_eq in H2. tauto.
  - subst. split; [exact H2|apply String.eqb_refl].
Qed.

Lemma omap_set_NoDup {V} (m : OMap.t V) k v :
  List.NoDup (map fst m) -> List.NoDup (map fst (OMap.set m k v)).
Proof.
  intros Hnd. rewrite omap_set_keys. destruct (OMap.has m k) eqn:E; [exact Hnd|].
  apply List.NoDup_app; [exact Hnd|repeat constructor; now intros []|].
  intros k' Hin [<-|[]]. apply omap_has_In in Hin. congruence.
Qed.

Lemma omap_get_In {V} (m : OMap.t V) k v :
  List.NoDup (map fst m) -> In (k, v) m -> OMap.get m k = Some v.
Proof.
  unfold OMap.get. induction m as [|[k' v'] m IH]; cbn [map fst List.find snd];
    intros Hnd Hin; [destruct Hin|].
  inversion Hnd as [|? ? Hnot Hnd']; subst.
  destruct Hin as [Heq|Hin].
  - injection Heq as -> ->. now rewrite String.eqb_refl.
  - destruct (String.eqb_spec k' k) as [->|Hne]; [|now apply IH].
    exfalso. apply Hnot. apply List.in_map_iff. now exists (k, v).
Qed.

Lemma indicesOf_snoc key l e :
  indicesOf key (l ++ [e])
  = indicesOf key l ++ (if String.eqb (parentKey (snd e)) key then [fst e] else []).
Proof.
  unfold indicesOf. rewrite List.filter_app, List.map_app. cbn [List.filter].
  now destruct (String.eqb (parentKey (snd e)) key).
Qed.

Lemma fold_addIndex l :
  List.NoDup (map fst (fold_left addIndex l []))
  /\ forall key, OMap.get (fold_left addIndex l []) key
                 = match indicesOf key l with [] => None | ix => Some ix end.
Proof.
  induction l as [|e l [IHnd IH]] using rev_ind; [split; [constructor|reflexivity]|].
  rewrite List.fold_left_app. cbn [fold_left].
  set (m := fold_left addIndex l []) in *. unfold addIndex.
  split; [now apply omap_set_NoDup|].
  intros key. rewrite indicesOf_snoc.
  destruct (String.eqb_spec (parentKey (snd e)) key) as [->|Hne].
  - rewrite omap_get_set_eq, IH. now destruct (indicesOf key l).
  - rewrite omap_get_set_ne by exact Hne. now rewrite IH, List.app_nil_r.
Qed.

Lemma indexed_In_from s (nodes : list Node) i n :
  In (i, n) (combine (seq s (length nodes)) nodes)
  <-> (s <= i)%nat /\ nodes !! (i - s)%nat = Some n.
Proof.
  revert s. induction nodes as [|n0 nodes IH]; intros s; cbn [length seq combine].
  - split; [intros []|intros [_ H]; discriminate].
  - cbn [In]. rewrite IH. split.
    + intros [Heq|[Hle Hl]].
      * injection Heq as -> ->. split; [lia|]. now rewrite Nat.sub_diag.
      * split; [lia|]. replace (i - s)%nat with (S (i - S s)) by lia. exact Hl.
    + intros [Hle Hl]. destruct (decide (i = s)) as [->|Hne].
      * left. rewrite Nat.sub_diag in Hl. cbn in Hl. now injection Hl as ->.
      * right. split; [lia|].
        replace (i - s)%nat with (S (i - S s)) in Hl by lia. exact Hl.
Qed.

Lemma indexed_In (nodes : list Node) i n :
  In (i, n) (indexed nodes) <-> nodes !! i = Some n.
Proof.
  unfold indexed. rewrite indexed_In_from, Nat.sub_0_r. split; [tauto|].
  intros H. split; [lia|exact H].
Qed.

Lemma indicesOf_In key (nodes : list Node) i :
  In i (indicesOf key (indexed nodes))
  <-> exists n, nodes !! i = Some n /\ parentKey n = key.
Proof.
  unfold indicesOf. rewrite List.in_map_iff. split.
  - intros ([i' n] & <- & Hin). apply List.filter_In in Hin as [Hin Hk].
    cbn [fst snd] in *. exists n. split; [now apply indexed_In|].
    now apply String.eqb_eq.
  - intros (n & Hn & Hk). exists (i, n). split; [reflexivity|].
    apply List.filter_In. split; [now apply indexed_In|].
    cbn [snd]. now apply String.eqb_eq.
Qed.


(** Every change is a displacement. *)












(** Two siblings, one of them dragged onto the other. *)





(** The example of the specification: overlap 60 on x and 90 on y, so the
    dragged card is put at x = 0 + (200 + 10) and keeps y = 0. *)
Example resolveCollisions_x_only :
  resolveCollisions [dragged; fixed] {[ "m" ]} = [withPosition dragged (mkPos 210 0); fixed].
Proof. now vm_compute. Qed.

(** *** The undo history *)

Lemma slice0_length {A} (l : list A) e : (length (slice0 l e) <= length l)%nat.
Proof. unfold slice0. rewrite length_take. lia. Qed.

Lemma slice0_take {A} (l : list A) e :
  0 <= e <= Z.of_nat (length l) -> slice0 l e = take (Z.to_nat e) l.
Proof.
  intros He. unfold slice0. destruct (Z.ltb_spec e 0); [lia|].
  now rewrite Z.min_l by lia.
Qed.

Lemma capped_length {A} (l : list A) :
  length (if (HISTORY_CAP <? length l)%nat then tail l else l)
  = if (HISTORY_CAP <? length l)%nat then pred (length l) else length l.
Proof. destruct (HISTORY_CAP <? length l)%nat; [now destruct l|reflexivity]. Qed.

Lemma pushHistory_length s :
  (length (history s) <= HISTORY_CAP)%nat ->
  (1 <= length (history (pushHistory s)) <= HISTORY_CAP)%nat.
Proof.
  intros H. unfold pushHistory. cbn [history]. rewrite capped_length.
  pose proof (slice0_length (history s) (historyIndex s + 1)).
  rewrite length_app. cbn [length].
  destruct (Nat.ltb_spec HISTORY_CAP
              (length (slice0 (history s) (historyIndex s + 1)) + 1));
    unfold HISTORY_CAP in *; lia.
Qed.

Lemma undo_history s : history (undo s) = history s.
Proof.
  unfold undo. destruct (historyIndex s <=? 0); [reflexivity|].
  now destruct (entryAt (history s) (historyIndex s - 1)).
Qed.

Lemma redo_history s : history (redo s) = history s.
Proof.
  unfold redo. destruct (historyIndex s >=? Z.of_nat (length (history s)) - 1);
    [reflexivity|].
  now destruct (entryAt (history s) (historyIndex s + 1)).
Qed.

Lemma step_bounded s a :
  (length (history s) <= HISTORY_CAP)%nat ->
  (length (history (step s a)) <= HISTORY_CAP)%nat.
Proof.
  intros H. destruct a; cbn [step history].
  - now apply pushHistory_length.
  - now rewrite undo_history.
  - now rewrite redo_history.
  - exact H.
Qed.

Lemma step_index s a :
  -1 <= historyIndex s < Z.of_nat (length (history s)) ->
  -1 <= historyIndex (step s a) < Z.of_nat (length (history (step s a))).
Proof.
  intros H. destruct a; cbn [step].
  - unfold pushHistory. cbn [history historyIndex]. rewrite capped_length.
    rewrite length_app. cbn [length].
    destruct (HISTORY_CAP <? _)%nat; lia.
  - unfold undo. destruct (Z.leb_spec (historyIndex s) 0); [exact H|].
    destruct (entryAt (history s) (historyIndex s - 1)); [|exact H].
    cbn [history historyIndex]. lia.
  - unfold redo.
    destruct (Z.geb_spec (historyIndex s) (Z.of_nat (length (history s)) - 1));
      [exact H|].
    destruct (entryAt (history s) (historyIndex s + 1)); [|exact H].
    cbn [history historyIndex]. lia.
  - exact H.
Qed.

Lemma last_capped {A} (l : list A) x :
  last (if (HISTORY_CAP <? length (l ++ [x]))%nat then tail (l ++ [x]) else l ++ [x])
  = Some x.
Proof.
  destruct (Nat.ltb_spec HISTORY_CAP (length (l ++ [x]))) as [Hlt|_];
    [|apply last_snoc].
  destruct l as [|y l]; [cbn in Hlt; unfold HISTORY_CAP in Hlt; lia|].
  cbn [app tail]. apply last_snoc.
Qed.

(** C10: the history never holds more than 50 snapshots; [pushHistory]
    drops the entries after the current index, appends the snapshot, evicts
    the oldest entry when that makes 51, and points [historyIndex] at the
    snapshot, which is the last entry. *)
Theorem history_bounded (s : AppState) (acts : list Action) :
  (length (history s) <= HISTORY_CAP)%nat ->
  -1 <= historyIndex s < Z.of_nat (length (history s)) ->
  (length (history (run s acts)) <= HISTORY_CAP)%nat
  /\ -1 <= historyIndex (run s acts) < Z.of_nat (length (history (run s acts)))
  /\ history (pushHistory s)
     = (if (HISTORY_CAP <? length (slice0 (history s) (historyIndex s + 1)
                                    ++ [mkEntry (nodes s) (edges s) (moduleName s)]))%nat
        then tail (slice0 (history s) (historyIndex s + 1)
                   ++ [mkEntry (nodes s) (edges s) (moduleName s)])
        else slice0 (history s) (historyIndex s + 1)
             ++ [mkEntry (nodes s) (edges s) (moduleName s)])
  /\ slice0 (history s) (historyIndex s + 1)
     = take (Z.to_nat (historyIndex s + 1)) (history s)
  /\ last (history (pushHistory s)) = Some (mkEntry (nodes s) (edges s) (moduleName s))
  /\ historyIndex (pushHistory s) = Z.of_nat (length (history (pushHistory s))) - 1
  /\ (1 <= length (history (pushHistory s)) <= HISTORY_CAP)%nat
  /\ HISTORY_CAP = 50%nat.
Proof.
  intros Hlen Hidx. split; [|split].
  - revert s Hlen Hidx. induction acts as [|a acts IH]; intros s Hlen Hidx; [exact Hlen|].
    cbn [run fold_left]. apply IH; [now apply step_bounded|now apply step_index].
  - revert s Hlen Hidx. induction acts as [|a acts IH]; intros s Hlen Hidx; [exact Hidx|].
    cbn [run fold_left]. apply IH; [now apply step_bounded|now apply step_index].
  - split; [reflexivity|]. split; [apply slice0_take; lia|].
    split; [apply last_capped|]. split; [reflexivity|].
    split; [now apply pushHistory_length|reflexivity].
Qed.

Lemma history_bounded_witness :
  (length (history initialState) <= HISTORY_CAP)%nat
  /\ -1 <= historyIndex initialState < Z.of_nat (length (history initialState))
  /\ (length (history (run initialState (repeat PushHistory 60 ++ [Undo; Undo; Redo])))
      <= HISTORY_CAP)%nat.
Proof.
  split; [cbn; unfold HISTORY_CAP; lia|]. split; [cbn; lia|].
  apply (history_bounded initialState (repeat PushHistory 60 ++ [Undo; Undo; Redo])).
  - cbn; unfold HISTORY_CAP; lia.
  - cbn; lia.
Defined.

End StoreProps.

(** ** Further properties of the code generator *)

Module SpecMoreProps.
Import Str Spec SpecMore Reference MoreReference SpecProps.

(** *** Strings *)

Lemma includes_app c a b : includes c (a +:+ b) = includes c a || includes c b.
Proof.
  induction a as [|x a IH]; [reflexivity|].
  rewrite app_cons_s. cbn [includes]. rewrite IH. apply orb_assoc.
Qed.

Lemma split_unfold sep c r :
  split sep (String c r)
  = if Ascii.eqb c sep then EmptyString :: split sep r
    else match split sep r with
         | h :: t => String c h :: t
         | [] => [String c EmptyString]
         end.
Proof. reflexivity. Qed.

Lemma split_not_nil sep s : split sep s <> [].
Proof.
  destruct s as [|c r]; [discriminate|]. rewrite split_unfold.
  destruct (Ascii.eqb c sep); [discriminate|]. destruct (split sep r); discriminate.
Qed.

Lemma split_keeps_out c sep s :
  includes c s = false -> Forall (fun p => includes c p = false) (split sep s).
Proof.
  induction s as [|x r IH]; intros H; [repeat constructor|].
  cbn [includes] in H. apply orb_false_iff in H as [Hx Hr].
  rewrite split_unfold. specialize (IH Hr).
  destruct (Ascii.eqb x sep); [constructor; [reflexivity|exact IH]|].
  destruct (split sep r) as [|h t].
  - repeat constructor. cbn [includes]. now rewrite Hx.
  - inversion IH; subst. constructor; [|assumption]. cbn [includes]. now rewrite Hx.
Qed.

Lemma split_no_sep sep s : Forall (fun p => includes sep p = false) (split sep s).
Proof.
  induction s as [|x r IH]; [repeat constructor|].
  rewrite split_unfold. destruct (Ascii.eqb x sep) eqn:E.
  - constructor; [reflexivity|exact IH].
  - destruct (split sep r) as [|h t].
    + repeat constructor. cbn [includes]. now rewrite E.
    + inversion IH; subst. constructor; [|assumption]. cbn [includes]. now rewrite E.
Qed.

Lemma concat_cons2 sep x y l :
  String.concat sep (x :: y :: l) = x +:+ sep +:+ String.concat sep (y :: l).
Proof. reflexivity. Qed.

Lemma join_split sep s : join (String sep "") (split sep s) = s.
Proof.
  unfold join. induction s as [|c r IH]; [reflexivity|].
  rewrite split_unfold. destruct (Ascii.eqb_spec c sep) as [->|Hne].
  - pose proof (split_not_nil sep r) as Hnil.
    destruct (split sep r) as [|h t]; [congruence|].
    rewrite concat_cons2, IH. reflexivity.
  - pose proof (split_not_nil sep r) as Hnil.
    destruct (split sep r) as [|h t]; [congruence|].
    destruct t as [|h' t].
    + cbn [String.concat] in *. now rewrite IH.
    + rewrite concat_cons2 in *. rewrite app_cons_s, IH. reflexivity.
Qed.

Lemma split_whole sep s : includes sep s = false -> split sep s = [s].
Proof.
  induction s as [|c r IH]; intros H; [reflexivity|].
  cbn [includes] in H. apply orb_false_iff in H as [Hc Hr].
  rewrite split_unfold, Hc, (IH Hr). reflexivity.
Qed.

Lemma split_app_sep sep a rest :
  includes sep a = false ->
  split sep (a +:+ String sep rest) = a :: split sep rest.
Proof.
  induction a as [|c r IH]; intros H.
  - change (EmptyString +:+ String sep rest) with (String sep rest).
    rewrite split_unfold, Ascii.eqb_refl. reflexivity.
  - cbn [includes] in H. apply orb_false_iff in H as [Hc Hr].
    rewrite app_cons_s, split_unfold, Hc, (IH Hr). reflexivity.
Qed.

Lemma split_join sep ls :
  ls <> [] -> Forall (fun l => includes sep l = false) ls ->
  split sep (join (String sep "") ls) = ls.
Proof.
  unfold join. induction ls as [|x ls IH]; intros Hne Hall; [congruence|].
  inversion Hall as [|? ? Hx Hls]; subst.
  destruct ls as [|y ls].
  - cbn [String.concat]. now apply split_whole.
  - rewrite concat_cons2.
    change (String sep "" +:+ String.concat (String sep "") (y :: ls))
      with (String sep (String.concat (String sep "") (y :: ls))).
    rewrite (split_app_sep _ _ _ Hx), IH; [reflexivity|discriminate|assumption].
Qed.

Lemma trimStart_includes c s : includes c (trimStart s) = true -> includes c s = true.
Proof.
  induction s as [|x r IH]; [trivial|]. cbn [trimStart includes].
  destruct (isWhiteSpace x); [|trivial].
  intros H. rewrite (IH H). apply orb_true_r.
Qed.

Lemma trimEnd_unfold c r :
  trimEnd (String c r)
  = if isWhiteSpace c && String.eqb (trimEnd r) "" then EmptyString
    else String c (trimEnd r).
Proof. reflexivity. Qed.

Lemma trimEnd_includes c s : includes c (trimEnd s) = true -> includes c s = true.
Proof.
  induction s as [|x r IH]; [trivial|]. rewrite trimEnd_unfold.
  destruct (isWhiteSpace x && String.eqb (trimEnd r) ""); [discriminate|].
  cbn [includes]. intros H. apply orb_true_iff in H as [H|H].
  - now rewrite H.
  - rewrite (IH H). apply orb_true_r.
Qed.

Lemma trim_keeps_out c s : includes c s = false -> includes c (trim s) = false.
Proof.
  intros H. unfold trim. destruct (includes c (trimEnd (trimStart s))) eqn:E;
    [|reflexivity].
  apply trimEnd_includes, trimStart_includes in E. congruence.
Qed.

Lemma trimEnd_idem s : trimEnd (trimEnd s) = trimEnd s.
Proof.
  induction s as [|c r IH]; [reflexivity|]. rewrite trimEnd_unfold.
  destruct (isWhiteSpace c && String.eqb (trimEnd r) "") eqn:E; [reflexivity|].
  rewrite trimEnd_unfold, IH, E. reflexivity.
Qed.

Lemma trimStart_trimmed s : trimStart (trimEnd (trimStart s)) = trimEnd (trimStart s).
Proof.
  destruct (blank s) eqn:E.
  - now rewrite (trimStart_blank s E).
  - destruct (trimStart_not_blank s E) as (c & r & -> & Hc).
    rewrite trimEnd_unfold, Hc. cbn [andb trimStart]. now rewrite Hc.
Qed.

Lemma trim_idem s : trim (trim s) = trim s.
Proof. unfold trim. now rewrite trimStart_trimmed, trimEnd_idem. Qed.

(** *** parseParamNames *)

Lemma parseParamNames_names_clean (params : string) :
  Forall cleanName (parseParamNames params).
Proof.
  unfold parseParamNames. destruct (negb (truthy (trim params))); [constructor|].
  apply List.Forall_forall. intros n Hn.
  apply List.filter_In in Hn as [Hn Ht]. apply List.in_map_iff in Hn as (p & <- & Hp).
  pose proof (split_no_sep "," params) as Hcomma.
  rewrite List.Forall_forall in Hcomma. specialize (Hcomma p Hp).
  pose proof (split_no_sep ":" p) as Hcolon.
  pose proof (split_keeps_out "," ":" p Hcomma) as Hcomma'.
  pose proof (split_not_nil ":" p) as Hnil.
  destruct (split ":" p) as [|h t]; [congruence|]. cbn [hd] in *.
  inversion Hcolon; inversion Hcomma'; subst.
  repeat split.
  - unfold truthy in Ht. apply negb_true_iff in Ht. now apply String.eqb_neq.
  - apply trim_idem.
  - now apply trim_keeps_out.
  - now apply trim_keeps_out.
Qed.

(** X2: every name [parseParamNames] returns is non-empty, has no white
    space around it, and contains neither a comma nor a colon. *)
Theorem parseParamNames_clean (params : string) :
  Forall cleanName (parseParamNames params)
  /\ parseParamNames "" = []
  /\ (trim params = "" -> parseParamNames params = []).
Proof.
  split; [apply parseParamNames_names_clean|]. split; [reflexivity|].
  intros H. unfold parseParamNames. now rewrite H.
Qed.

(** *** indentLines *)

(** X3: [indentLines] puts the indent before every line and keeps the
    lines apart (for an indent without a line break), and an empty indent
    gives the text back. *)
Theorem indentLines_lines (text indent : string) :
  (includes LF indent = false ->
   split LF (indentLines text indent) = map (fun l => indent +:+ l) (split LF text))
  /\ length (split LF (indentLines text "")) = length (split LF text)
  /\ indentLines text "" = text.
Proof.
  assert (indentLines text "" = text) as Hid.
  { unfold indentLines.
    replace (map (fun l => EmptyString +:+ l) (split LF text)) with (split LF text)
      by (symmetry; apply List.map_id).
    apply join_split. }
  split; [|split; [now rewrite Hid|exact Hid]].
  intros Hind. unfold indentLines, nl. apply split_join.
  - pose proof (split_not_nil LF text). now destruct (split LF text).
  - apply List.Forall_forall. intros l Hl.
    apply List.in_map_iff in Hl as (l0 & <- & Hl0).
    rewrite includes_app, Hind.
    pose proof (split_no_sep LF text) as H. rewrite List.Forall_forall in H.
    now rewrite (H l0 Hl0).
Qed.

(** *** One rendered line per declaration *)

Lemma includes_orElse c a b :
  includes c a = false -> includes c b = false -> includes c (orElse a b) = false.
Proof. intros Ha Hb. unfold orElse. now destruct (String.eqb a ""). Qed.

(** X4: every rendered declaration starts with the two-space indentation,
    whatever its fields hold; and a declaration whose name, type, parameters
    and body hold no line break is rendered on one line. *)
Theorem declToQuint_one_line (d : VisualDeclaration) :
  startsWith "  " (declToQuint d) = true
  /\ (includes LF (name d) = false -> includes LF (type d) = false ->
      includes LF (params d) = false -> includes LF (body d) = false ->
      includes LF (declToQuint d) = false).
Proof.
  split.
  - unfold declToQuint.
    destruct (kind d); try reflexivity;
      repeat match goal with |- context [if ?b then _ else _] => destruct b end;
      reflexivity.
  - intros Hn Ht Hp Hb.
    assert (includes LF (orElse (name d) "_unnamed") = false) as Hn'
      by (now apply includes_orElse).
    unfold declToQuint. destruct (kind d) eqn:Ek; cbn [kind_eqb kindStr].
    + rewrite !includes_app, Hn', (includes_orElse _ _ "int" Ht eq_refl). reflexivity.
    + rewrite !includes_app, Hn', (includes_orElse _ _ "int" Ht eq_refl). reflexivity.
    + rewrite !includes_app, Hn', (includes_orElse _ _ "???" Hb eq_refl).
      destruct (isPure d), (truthy (type d)); rewrite ?includes_app, ?Ht; reflexivity.
    + rewrite (includes_orElse _ _ "???" Hb eq_refl).
      rewrite !includes_app, Hn', (includes_orElse _ _ "???" Hb eq_refl).
      destruct (isPure d), (truthy (type d)), (truthy (params d));
        rewrite ?includes_app, ?Ht, ?Hp; reflexivity.
    + rewrite (includes_orElse _ _ "???" Hb eq_refl).
      rewrite !includes_app, Hn', (includes_orElse _ _ "???" Hb eq_refl).
      destruct (isPure d), (truthy (type d)), (truthy (params d));
        rewrite ?includes_app, ?Ht, ?Hp; reflexivity.
    + rewrite !includes_app, Hn', (includes_orElse _ _ "int" Hb eq_refl). reflexivity.
    + rewrite !includes_app, Hn', (includes_orElse _ _ "true" Hb eq_refl). reflexivity.
Qed.

Lemma declToQuint_one_line_witness :
  includes LF (name varX) = false
  /\ includes LF (declToQuint varX) = false
  /\ startsWith "  " (declToQuint transfer) = true.
Proof.
  split; [reflexivity|]. split.
  - exact (proj2 (declToQuint_one_line varX) eq_refl eq_refl eq_refl eq_refl).
  - exact (proj1 (declToQuint_one_line transfer)).
Defined.

(** *** The synthesized step is closed *)

Lemma declaredParams_names acts n :
  In n (map fst (declaredParams acts))
  <-> exists a, In a acts /\ In n (parseParamNames (params a)).
Proof.
  unfold declaredParams. rewrite List.in_map_iff. split.
  - intros (p & <- & Hp). apply List.in_flat_map in Hp as (a & Ha & Hp).
    exists a. split; [exact Ha|]. rewrite parseParamNames_paramsOf. now apply List.in_map.
  - intros (a & Ha & Hn). rewrite parseParamNames_paramsOf in Hn.
    apply List.in_map_iff in Hn as (p & <- & Hp). exists p. split; [reflexivity|].
    apply List.in_flat_map. now exists a.
Qed.

(** X1: the names bound by the [nondet] lines of a synthesized step are
    exactly the names passed in its calls, each bound once: no call refers
    to an unbound name and no binding is unused. *)
Theorem step_calls_bound (acts : list VisualDeclaration) :
  (forall n, In n (map fst (collectUniqueParams acts))
             <-> exists a, In a acts /\ In n (parseParamNames (params a)))
  /\ List.NoDup (map fst (collectUniqueParams acts))
  /\ Forall cleanName (map fst (collectUniqueParams acts)).
Proof.
  rewrite collectUniqueParams_first. split; [|split].
  - intros n. rewrite firstOccurrences_names. apply declaredParams_names.
  - apply firstOccurrences_NoDup.
  - apply List.Forall_forall. intros n Hn.
    apply firstOccurrences_names, declaredParams_names in Hn as (a & _ & Hn).
    pose proof (parseParamNames_names_clean (params a)) as H.
    rewrite List.Forall_forall in H. now apply H.
Qed.

(** *** Ids never reach the generated code *)

Section Reid.
Variable f : VisualDeclaration -> string.

Lemma filter_reid (P : VisualDeclaration -> bool) l :
  (forall d, P ((reid f) d) = P d) ->
  List.filter P (map (reid f) l) = map (reid f) (List.filter P l).
Proof.
  intros HP. induction l as [|d l IH]; [reflexivity|].
  cbn [map List.filter]. rewrite HP, IH. now destruct (P d).
Qed.

Lemma existsb_reid (P : VisualDeclaration -> bool) l :
  (forall d, P ((reid f) d) = P d) -> existsb P (map (reid f) l) = existsb P l.
Proof.
  intros HP. induction l as [|d l IH]; [reflexivity|].
  cbn [map existsb]. now rewrite HP, IH.
Qed.

Lemma byPriority_reid l : byPriority (map (reid f) l) = map (reid f) (byPriority l).
Proof.
  unfold byPriority, ofKind. rewrite !List.map_app.
  now rewrite !filter_reid by reflexivity.
Qed.

Lemma needsCombined_reid nm acts :
  needsCombined nm (map (reid f) acts) = needsCombined nm acts.
Proof. destruct acts as [|a [|b l]]; reflexivity. Qed.

Lemma collectUniqueParams_reid acts :
  collectUniqueParams (map (reid f) acts) = collectUniqueParams acts.
Proof.
  rewrite !collectUniqueParams_first. f_equal. unfold declaredParams.
  induction acts as [|a l IH]; [reflexivity|]. cbn [map flat_map]. now rewrite IH.
Qed.

Lemma initExtra_reid l : initExtra (map (reid f) l) = initExtra l.
Proof.
  unfold initExtra, needsInit, hasExplicit, initActions.
  rewrite existsb_reid, filter_reid, needsCombined_reid by reflexivity.
  destruct (negb _ && _); [|reflexivity].
  rewrite List.map_map.
  destruct (List.filter _ l) as [|a [|b r]]; reflexivity.
Qed.

Lemma stepExtra_reid l : stepExtra (map (reid f) l) = stepExtra l.
Proof.
  unfold stepExtra, needsStep, hasExplicit, stepActions.
  rewrite existsb_reid, filter_reid, needsCombined_reid by reflexivity.
  destruct (negb _ && _); [|reflexivity].
  rewrite collectUniqueParams_reid, List.map_map. reflexivity.
Qed.

Lemma runExtra_reid l : runExtra (map (reid f) l) = runExtra l.
Proof.
  unfold runExtra, hasInit, hasStep, hasExplicit, initActions, stepActions, invariants.
  rewrite !existsb_reid, !filter_reid by reflexivity.
  rewrite !length_map, List.map_map.
  destruct (_ && _); [|reflexivity].
  destruct (List.filter _ l); reflexivity.
Qed.

Lemma declsToQuint_reid moduleName l :
  declsToQuint moduleName (map (reid f) l) = declsToQuint moduleName l.
Proof.
  destruct l as [|d l]; [reflexivity|].
  change (map (reid f) (d :: l)) with ((reid f) d :: map (reid f) l) at 1.
  rewrite !declsToQuint_cons.
  change ((reid f) d :: map (reid f) l) with (map (reid f) (d :: l)).
  rewrite !sort_byPriority, byPriority_reid, List.map_map.
  unfold generateCombinedActions.
  now rewrite initExtra_reid, stepExtra_reid, runExtra_reid.
Qed.

End Reid.

(** X5: the generated code does not depend on the ids of the declarations:
    giving every declaration another id leaves [declsToQuint] unchanged. *)
Theorem declsToQuint_ignores_ids
    (f : VisualDeclaration -> string) (moduleName : string)
    (decls : list VisualDeclaration) :
  declsToQuint moduleName (map (fun d => withId d (f d)) decls)
  = declsToQuint moduleName decls.
Proof. apply declsToQuint_reid. Qed.

(** *** What the synthesis looks at *)

Lemma filter_narrow {A} (P Q : A -> bool) l :
  (forall x, P x = true -> Q x = true) ->
  List.filter P (List.filter Q l) = List.filter P l.
Proof.
  intros H. induction l as [|x l IH]; [reflexivity|]. cbn [List.filter].
  destruct (Q x) eqn:Eq; cbn [List.filter]; rewrite IH; [reflexivity|].
  destruct (P x) eqn:Ep; [|reflexivity]. rewrite (H x Ep) in Eq. discriminate.
Qed.

Lemma existsb_narrow {A} (P Q : A -> bool) l :
  (forall x, P x = true -> Q x = true) ->
  existsb P (List.filter Q l) = existsb P l.
Proof.
  intros H. induction l as [|x l IH]; [reflexivity|]. cbn [List.filter existsb].
  destruct (Q x) eqn:Eq; cbn [existsb]; rewrite IH; [reflexivity|].
  destruct (P x) eqn:Ep; [|reflexivity]. rewrite (H x Ep) in Eq. discriminate.
Qed.

Lemma relevant_action (b : bool) d :
  b && isAction d = true -> relevant d = true.
Proof.
  intros H. apply andb_true_iff in H as [_ H]. unfold relevant. now rewrite H.
Qed.

Lemma generateCombinedActions_relevant decls :
  generateCombinedActions (List.filter relevant decls) = generateCombinedActions decls.
Proof.
  assert (initActions (List.filter relevant decls) = initActions decls) as Hi
    by (apply filter_narrow; intros d; apply relevant_action).
  assert (stepActions (List.filter relevant decls) = stepActions decls) as Hs
    by (apply filter_narrow; intros d; apply relevant_action).
  assert (forall nm, hasExplicit nm (List.filter relevant decls) = hasExplicit nm decls)
    as He by (intros nm; apply existsb_narrow; intros d; apply relevant_action).
  assert (invariants (List.filter relevant decls) = invariants decls) as Hv.
  { apply filter_narrow. intros d H. unfold relevant. rewrite H. apply orb_true_r. }
  unfold generateCombinedActions, initExtra, stepExtra, runExtra,
    needsInit, needsStep, hasInit, hasStep.
  now rewrite Hi, Hs, !He, Hv.
Qed.

(** X6: the synthesized initializer, step and run depend only on the
    actions and on the named values and functions of invariant role: every
    other declaration, whatever its role or name, can be added or removed
    without changing them; a role on a variable, constant, type or
    assumption is ignored. *)
Theorem synthesis_ignores_others (decls : list VisualDeclaration) :
  generateCombinedActions (List.filter relevant decls) = generateCombinedActions decls
  /\ (forall d l1 l2, relevant d = false ->
        generateCombinedActions (l1 ++ d :: l2) = generateCombinedActions (l1 ++ l2))
  /\ (forall d, kind d = KVar \/ kind d = KConst \/ kind d = KType \/ kind d = KAssume ->
        relevant d = false).
Proof.
  split; [apply generateCombinedActions_relevant|split].
  - intros d l1 l2 Hd.
    rewrite <- (generateCombinedActions_relevant (l1 ++ d :: l2)).
    rewrite <- (generateCombinedActions_relevant (l1 ++ l2)).
    rewrite !List.filter_app. cbn [List.filter]. now rewrite Hd.
  - intros d Hk. unfold relevant, isAction, isKind.
    destruct Hk as [Hk|[Hk|[Hk|Hk]]]; rewrite Hk; cbn [kind_eqb orb];
      now rewrite andb_false_r.
Qed.

(** *** inferRole *)

Lemma lowerChar_idem c : lowerChar (lowerChar c) = lowerChar c.
Proof. destruct c as [[] [] [] [] [] [] [] []]; reflexivity. Qed.

Lemma toLowerCase_idem s : toLowerCase (toLowerCase s) = toLowerCase s.
Proof.
  induction s as [|c r IH]; [reflexivity|].
  cbn [toLowerCase]. now rewrite lowerChar_idem, IH.
Qed.

Local Ltac rules_done :=
  cbn [orb]; repeat split; intros;
  repeat match goal with H : _ \/ _ |- _ => destruct H end;
  try discriminate; try congruence; try tauto.

(** X7: [inferRole] looks at the name in lower case only, and its three
    rules exclude one another: init for the name init, step for step and
    next, invariant for the names that start with inv or end with invariant,
    nothing otherwise. *)
Theorem inferRole_rules (name : string) :
  inferRole (toLowerCase name) = inferRole name
  /\ (inferRole name = Some RInit <-> toLowerCase name = "init")
  /\ (inferRole name = Some RStep
      <-> toLowerCase name = "step" \/ toLowerCase name = "next")
  /\ (inferRole name = Some RInvariant
      <-> startsWith "inv" (toLowerCase name) = true
          \/ endsWith "invariant" (toLowerCase name) = true).
Proof.
  split; [unfold inferRole; now rewrite toLowerCase_idem|].
  unfold inferRole. set (lower := toLowerCase name).
  destruct (String.eqb_spec lower "init") as [->|Hi]; [rules_done|].
  destruct (String.eqb_spec lower "step") as [->|Hs]; [rules_done|].
  destruct (String.eqb_spec lower "next") as [->|Hx]; [rules_done|].
  cbn [orb].
  destruct (startsWith "inv" lower) eqn:E1; [rules_done|].
  destruct (endsWith "invariant" lower) eqn:E2; rules_done.
Qed.

(** *** The scaffold *)

(** X8: the code of the state machine scaffold, for every id generator: the
    declarations in kind order, the step body with its [nondet] lines inside
    a bare block, no synthesized [init] or [step] (both are written out),
    and one run that expects [no_negatives]. *)
Theorem scaffold_code (idGen : nat -> string) :
  map declToQuint (sort compareKind (createStateMachineDecls idGen))
  = [ "  var balances: str -> int";
      "  pure val ADDRESSES = Set(" +:+ quoted "alice" +:+ ", " +:+ quoted "bob"
        +:+ ", " +:+ quoted "charlie" +:+ ")";
      "  val no_negatives = ADDRESSES.forall(addr => balances.get(addr) >= 0)";
      "  action init = balances' = ADDRESSES.mapBy(_ => 0)";
      "  action deposit(account, amount) = "
        +:+ "balances' = balances.setBy(account, curr => curr + amount)";
      "  action withdraw(account, amount) = "
        +:+ "balances' = balances.setBy(account, curr => curr - amount)";
      "  action step = {" +:+ nl
        +:+ "    nondet account = ADDRESSES.oneOf()" +:+ nl
        +:+ "    nondet amount = 1.to(100).oneOf()" +:+ nl
        +:+ "    any {" +:+ nl
        +:+ "      deposit(account, amount)," +:+ nl
        +:+ "      withdraw(account, amount)," +:+ nl
        +:+ "    }" +:+ nl
        +:+ "  }" ]
  /\ generateCombinedActions (createStateMachineDecls idGen)
     = ["  run invariantTest = init.then(20.reps(_ => step.expect(no_negatives)))"].
Proof. split; reflexivity. Qed.

(** *** Every declaration is rendered once *)

Lemma insertSorted_perm {A} (cmp : A -> A -> Z) x l :
  Permutation (insertSorted cmp x l) (x :: l).
Proof.
  induction l as [|y l IH]; cbn [insertSorted]; [reflexivity|].
  destruct (cmp x y <=? 0); [reflexivity|].
  rewrite IH. apply perm_swap.
Qed.

Lemma sort_perm {A} (cmp : A -> A -> Z) l : Permutation (sort cmp l) l.
Proof.
  induction l as [|x l IH]; [reflexivity|].
  cbn [sort foldr]. rewrite insertSorted_perm. now constructor.
Qed.

(** X22: [declsToQuint] renders every declaration exactly once: the body
    of a non-empty module is the rendering of each element of an array that
    is a permutation of the collection, followed by the synthesized
    fragments, of which there are at most three. *)
Theorem declsToQuint_fragments (moduleName : string) (decls : list VisualDeclaration) :
  declsToQuint moduleName decls
  = match decls with
    | [] => "module " +:+ moduleId moduleName +:+ " {" +:+ nl +:+ "}"
    | _ => envelope moduleName
             (join (nl +:+ nl)
                (map declToQuint (sort compareKind decls) ++ generateCombinedActions decls))
    end
  /\ Permutation (sort compareKind decls) decls
  /\ length (map declToQuint (sort compareKind decls)) = length decls
  /\ (length (generateCombinedActions decls) <= 3)%nat
  /\ (forall d, In d decls <-> In d (sort compareKind decls)).
Proof.
  pose proof (sort_perm compareKind decls) as Hp.
  split; [now destruct decls|].
  split; [exact Hp|]. split; [|split].
  - rewrite length_map. now apply Permutation_length.
  - unfold generateCombinedActions. rewrite !length_app.
    rewrite initExtra_form.
    destruct (stepExtra_form decls) as [r1 ->]. destruct (runExtra_form decls) as [r2 ->].
    destruct (needsInit decls), (needsStep decls), (hasInit decls && hasStep decls);
      cbn [length]; lia.
  - intros d. split; intros H.
    + eapply Permutation_in; [symmetry; exact Hp|exact H].
    + eapply Permutation_in; [exact Hp|exact H].
Qed.

End SpecMoreProps.

(** ** Further properties of the store *)

Module StoreMoreProps.
Import Str Store StoreMore StoreReference StoreMoreReference StoreProps.

(** *** resizeGroups *)

Lemma fitted_sameButStyle nodes n : sameButStyle n (fitted nodes n).
Proof.
  unfold fitted, sameButStyle. destruct (isGroup n); [|tauto].
  destruct (directChildren n nodes); cbn; tauto.
Qed.

Lemma fitted_isGroup nodes n : isGroup (fitted nodes n) = isGroup n.
Proof.
  unfold isGroup. destruct (fitted_sameButStyle nodes n) as (_ & -> & _). reflexivity.
Qed.

Lemma fitted_childOf nodes k n : childOf k (fitted nodes n) = childOf k n.
Proof.
  unfold childOf. destruct (fitted_sameButStyle nodes n) as (_ & _ & _ & -> & _).
  reflexivity.
Qed.

Lemma fitted_rightExtent nodes n : rightExtent (fitted nodes n) = rightExtent n.
Proof.
  unfold rightExtent, widthOr.
  destruct (fitted_sameButStyle nodes n) as (_ & _ & -> & _ & -> & _). reflexivity.
Qed.

Lemma fitted_bottomExtent nodes n : bottomExtent (fitted nodes n) = bottomExtent n.
Proof.
  unfold bottomExtent, heightOr.
  destruct (fitted_sameButStyle nodes n) as (_ & _ & -> & _ & -> & _). reflexivity.
Qed.

Lemma directChildren_fitted nodes g l :
  directChildren (fitted nodes g) (map (fitted nodes) l)
  = map (fitted nodes) (directChildren g l).
Proof.
  unfold directChildren.
  destruct (fitted_sameButStyle nodes g) as (-> & _).
  destruct (truthy (id g)); [|reflexivity].
  induction l as [|n l IH]; [reflexivity|]. cbn [map List.filter].
  rewrite fitted_childOf, IH. now destruct (childOf (id g) n).
Qed.

Lemma fitWidth_fitted nodes cs : fitWidth (map (fitted nodes) cs) = fitWidth cs.
Proof.
  unfold fitWidth. f_equal. f_equal. rewrite List.map_map.
  apply List.map_ext. intros c. apply fitted_rightExtent.
Qed.

Lemma fitHeight_fitted nodes cs : fitHeight (map (fitted nodes) cs) = fitHeight cs.
Proof.
  unfold fitHeight. do 2 f_equal. f_equal. rewrite List.map_map.
  apply List.map_ext. intros c. apply fitted_bottomExtent.
Qed.

Lemma fitted_again nodes n :
  fitted (map (fitted nodes) nodes) (fitted nodes n) = fitted nodes n.
Proof.
  unfold fitted at 1. rewrite fitted_isGroup, directChildren_fitted.
  destruct (isGroup n) eqn:Hg; [|reflexivity].
  destruct (directChildren n nodes) as [|c cs] eqn:Hc; [reflexivity|].
  cbn [map].
  change (fitted nodes c :: map (fitted nodes) cs) with (map (fitted nodes) (c :: cs)).
  rewrite fitWidth_fitted, fitHeight_fitted.
  unfold fitted. rewrite Hg, Hc. reflexivity.
Qed.

(** X9: [resizeGroups] is idempotent: sizing the groups of an array that
    was just sized changes nothing. *)
Theorem resizeGroups_idempotent (nodes : list Node) :
  resizeGroups (resizeGroups nodes) = resizeGroups nodes.
Proof.
  rewrite !resizeGroups_fitted, List.map_map.
  apply List.map_ext. intros n. apply fitted_again.
Qed.

(** X10: after [resizeGroups], the style of a group with a non-empty id
    covers every direct child: the width is at least the child's right
    extent plus 15 and the height at least its bottom extent plus 55. *)
Theorem resizeGroups_covers (nodes : list Node) (g c : Node) :
  In g (resizeGroups nodes) -> isGroup g = true ->
  In c (directChildren g (resizeGroups nodes)) ->
  exists w h, oldWidth g = Some w /\ oldHeight g = Some h
              /\ rightExtent c + GROUP_PADDING <= w
              /\ bottomExtent c + GROUP_PADDING + GROUP_BUTTON_AREA <= h.
Proof.
  rewrite resizeGroups_fitted. intros Hg Hgrp Hc.
  apply List.in_map_iff in Hg as (g0 & <- & Hg0).
  rewrite directChildren_fitted in Hc. apply List.in_map_iff in Hc as (c0 & <- & Hc0).
  rewrite fitted_isGroup in Hgrp. rewrite fitted_rightExtent, fitted_bottomExtent.
  unfold fitted at 1 2. rewrite Hgrp.
  destruct (directChildren g0 nodes) as [|c1 cs] eqn:E; [destruct Hc0|].
  exists (fitWidth (c1 :: cs)), (fitHeight (c1 :: cs)).
  split; [reflexivity|]. split; [reflexivity|].
  destruct (maxOf0_spec (map rightExtent (c1 :: cs))) as (_ & Hr & _).
  destruct (maxOf0_spec (map bottomExtent (c1 :: cs))) as (_ & Hb & _).
  rewrite List.Forall_forall in Hr, Hb.
  unfold fitWidth, fitHeight. split.
  - specialize (Hr (rightExtent c0) (List.in_map _ _ _ Hc0)). cbn beta in Hr. lia.
  - specialize (Hb (bottomExtent c0) (List.in_map _ _ _ Hc0)). cbn beta in Hb. lia.
Qed.

Lemma resizeGroups_covers_witness :
  In (withSize lonelyGroup 15 55) (resizeGroups [lonelyGroup; strayChild])
  /\ isGroup (withSize lonelyGroup 15 55) = true
  /\ In strayChild
       (directChildren (withSize lonelyGroup 15 55) (resizeGroups [lonelyGroup; strayChild]))
  /\ exists w h, oldWidth (withSize lonelyGroup 15 55) = Some w
                 /\ oldHeight (withSize lonelyGroup 15 55) = Some h
                 /\ rightExtent strayChild + GROUP_PADDING <= w
                 /\ bottomExtent strayChild + GROUP_PADDING + GROUP_BUTTON_AREA <= h.
Proof.
  assert (resizeGroups [lonelyGroup; strayChild] = [withSize lonelyGroup 15 55; strayChild])
    as E by now vm_compute.
  assert (In (withSize lonelyGroup 15 55) (resizeGroups [lonelyGroup; strayChild])) as H1
    by (rewrite E; now left).
  assert (In strayChild
            (directChildren (withSize lonelyGroup 15 55)
               (resizeGroups [lonelyGroup; strayChild]))) as H2
    by (rewrite E; now left).
  split; [exact H1|]. split; [reflexivity|]. split; [exact H2|].
  exact (resizeGroups_covers [lonelyGroup; strayChild] (withSize lonelyGroup 15 55)
           strayChild H1 eq_refl H2).
Defined.

Lemma Forall2_map_self {A B} (R : A -> B -> Prop) (F : A -> B) l :
  (forall x, R x (F x)) -> Forall2 R l (map F l).
Proof. intros H. induction l; cbn [map]; constructor; auto. Qed.

(** X11: [resizeGroups] keeps the length and the order of the array and
    writes nothing but the style of group nodes: id, type, position, parent,
    measured size and data of every node stay, and a node that is not a group
    is returned as it is. *)
Theorem resizeGroups_only_styles (nodes : list Node) :
  length (resizeGroups nodes) = length nodes
  /\ Forall2 (fun n n' => sameButStyle n n' /\ (isGroup n = false -> n' = n))
       nodes (resizeGroups nodes).
Proof.
  rewrite resizeGroups_fitted. split; [apply length_map|].
  apply Forall2_map_self. intros n.
  split; [apply fitted_sameButStyle|]. intros Hn. unfold fitted. now rewrite Hn.
Qed.

(** *** resolveCollisions *)

(** X12: when no node of the array has its id in [movedIds], the array is
    returned as it is, whatever overlaps it has. *)
Theorem resolveCollisions_none_moved (nodes : list Node) (movedIds : gset string) :
  Forall (fun n => id n ∉ movedIds) nodes ->
  resolveCollisions nodes movedIds = nodes.
Proof.
  intros Hall. destruct (resolveCollisions_displaced nodes movedIds) as [Hlen H].
  apply list_eq. intros i. destruct (nodes !! i) as [n|] eqn:E.
  - destruct (H i n E) as (n' & -> & _ & Hu). f_equal. apply Hu.
    rewrite List.Forall_forall in Hall. apply Hall.
    apply list_elem_of_In, list_elem_of_lookup. now exists i.
  - apply lookup_ge_None. apply lookup_ge_None in E. lia.
Qed.

Lemma resolveCollisions_none_moved_witness :
  Forall (fun n => id n ∉ ({[ "zz" ]} : gset string)) [dragged; fixed]
  /\ resolveCollisions [dragged; fixed] {[ "zz" ]} = [dragged; fixed].
Proof.
  assert (Forall (fun n => id n ∉ ({[ "zz" ]} : gset string)) [dragged; fixed]) as H
    by (repeat constructor; cbn; set_solver).
  split; [exact H|]. exact (resolveCollisions_none_moved _ _ H).
Defined.

Lemma pairStep_frame m st ii jj (k : nat) :
  k <> ii -> k <> jj -> out (pairStep m ii st jj) !! k = out st !! k.
Proof.
  intros Hi Hj.
  destruct (out st !! ii) as [a|] eqn:Ha;
    [|unfold pairStep; now rewrite Ha].
  destruct (out st !! jj) as [b|] eqn:Hb;
    [|unfold pairStep; now rewrite Ha, Hb].
  destruct (decide (id a ∈ m \/ id b ∈ m)) as [Hm|Hm];
    [|now rewrite (pairStep_skip m st ii jj a b Ha Hb) by tauto].
  destruct (Z.ltb_spec 0 (overlapX a b)) as [Hx|Hx];
    [|now rewrite (pairStep_skip m st ii jj a b Ha Hb) by lia].
  destruct (Z.ltb_spec 0 (overlapY a b)) as [Hy|Hy];
    [|now rewrite (pairStep_skip m st ii jj a b Ha Hb) by lia].
  destruct (pairStep_displaces m st ii jj a b Ha Hb Hm Hx Hy)
    as (stopI & stopped & blocker & Hc & _ & _ & ->).
  cbn [out]. apply list_lookup_insert_ne.
  destruct Hc as [(-> & _)|(-> & _)]; congruence.
Qed.

Lemma fold_pairStep_frame m ii rest st (k : nat) :
  k <> ii -> ~ In k rest ->
  out (fold_left (pairStep m ii) rest st) !! k = out st !! k.
Proof.
  intros Hi. revert st. induction rest as [|jj rest IH]; intros st Hk; [reflexivity|].
  cbn [fold_left]. rewrite IH by (intros H; apply Hk; now right).
  apply pairStep_frame; [exact Hi|]. intros ->. apply Hk. now left.
Qed.

Lemma pairLoops_frame m idxs st (k : nat) :
  ~ In k idxs -> out (pairLoops m idxs st) !! k = out st !! k.
Proof.
  revert st. induction idxs as [|ii rest IH]; intros st Hk; [reflexivity|].
  cbn [pairLoops]. rewrite IH by (intros H; apply Hk; now right).
  apply fold_pairStep_frame; [intros ->; apply Hk; now left|].
  intros H. apply Hk. now right.
Qed.

Lemma passes_frame m n idxs st (k : nat) :
  ~ In k idxs -> out (passes m n idxs st) !! k = out st !! k.
Proof.
  intros Hk. revert st. induction n as [|n IH]; intros st; [reflexivity|].
  cbn [passes].
  assert (out (onePass m idxs st) !! k = out st !! k) as H1
    by (unfold onePass; now rewrite pairLoops_frame).
  destruct (settled (onePass m idxs st)); [exact H1|]. now rewrite IH.
Qed.

Lemma groups_frame m groups st (k : nat) :
  Forall (fun g => ~ In k (snd g) \/ (length (snd g) < 2)%nat) groups ->
  out (fold_left (groupStep m) groups st) !! k = out st !! k.
Proof.
  revert st. induction groups as [|g groups IH]; intros st Hall; [reflexivity|].
  inversion Hall as [|? ? Hg Hrest]; subst. cbn [fold_left]. rewrite (IH _ Hrest).
  unfold groupStep. destruct (Nat.ltb_spec (length (snd g)) 2); [reflexivity|].
  destruct Hg as [Hg|Hg]; [now apply passes_frame|lia].
Qed.

Lemma indexed_fst_from s (nodes : list Node) :
  map fst (combine (seq s (length nodes)) nodes) = seq s (length nodes).
Proof.
  revert s. induction nodes as [|n l IH]; intros s; [reflexivity|].
  cbn [length seq combine map fst]. now rewrite IH.
Qed.

Lemma filter_fst_NoDup {A B} (P : A * B -> bool) (l : list (A * B)) :
  List.NoDup (map fst l) -> List.NoDup (map fst (List.filter P l)).
Proof.
  induction l as [|e l IH]; intros Hnd; [constructor|].
  cbn [map] in Hnd. inversion Hnd as [|? ? Hnot Hnd']; subst.
  cbn [List.filter]. destruct (P e); [|now apply IH].
  cbn [map]. constructor; [|now apply IH].
  intros H. apply Hnot. apply List.in_map_iff in H as (e' & He' & Hin).
  apply List.filter_In in Hin as [Hin _]. rewrite <- He'. now apply List.in_map.
Qed.

Lemma indicesOf_NoDup key (nodes : list Node) :
  List.NoDup (indicesOf key (indexed nodes)).
Proof.
  unfold indicesOf, indexed. apply filter_fst_NoDup.
  rewrite indexed_fst_from. apply List.seq_NoDup.
Qed.

Lemma byParent_entry (nodes : list Node) key idxs :
  In (key, idxs) (byParent nodes) -> idxs = indicesOf key (indexed nodes).
Proof.
  intros Hin. destruct (fold_addIndex (indexed nodes)) as [Hnd Hget].
  change (byParent nodes) with (fold_left addIndex (indexed nodes) []) in Hin.
  pose proof (omap_get_In _ _ _ Hnd Hin) as Hg. rewrite Hget in Hg.
  destruct (indicesOf key (indexed nodes)); [discriminate|]. now injection Hg.
Qed.

Lemma all_equal_short (l : list nat) k :
  List.NoDup l -> (forall i, In i l -> i = k) -> (length l < 2)%nat.
Proof.
  intros Hnd Hall. destruct l as [|a [|b l]]; cbn [length]; try lia.
  exfalso. inversion Hnd as [|? ? Hnot _]; subst. apply Hnot.
  rewrite (Hall a) by now left. rewrite (Hall b) by (right; now left). now left.
Qed.

(** X13: only siblings are compared: a node that is alone under its parent
    is returned as it is, moved or not, whatever it overlaps. *)
Theorem resolveCollisions_only_siblings
    (nodes : list Node) (movedIds : gset string) (k : nat) (n : Node) :
  nodes !! k = Some n -> onlyChild nodes k n ->
  resolveCollisions nodes movedIds !! k = Some n.
Proof.
  intros Hk Honly. unfold resolveCollisions.
  destruct (bool_decide (size movedIds = 0%nat)); [exact Hk|].
  assert (out (fold_left (groupStep movedIds) (byParent nodes) (mkLoop nodes true false))
            !! k = Some n) as H.
  { rewrite groups_frame; [exact Hk|].
    apply List.Forall_forall. intros [key idxs] Hin. cbn [snd].
    destruct (List.in_dec Nat.eq_dec k idxs) as [Hkin|Hkin]; [right|now left].
    pose proof (byParent_entry nodes key idxs Hin) as ->.
    apply (all_equal_short _ k); [apply indicesOf_NoDup|].
    intros i Hi. apply indicesOf_In in Hi as (mi & Hmi & Hkey).
    apply indicesOf_In in Hkin as (nk & Hnk & Hkey').
    rewrite Hk in Hnk. injection Hnk as <-.
    apply (Honly i mi Hmi). congruence. }
  destruct (didChange _); [exact H|exact Hk].
Qed.

Lemma resolveCollisions_only_siblings_witness :
  [lonelyGroup; strayChild] !! 1%nat = Some strayChild
  /\ resolveCollisions [lonelyGroup; strayChild] {[ "c" ]} !! 1%nat = Some strayChild.
Proof.
  split; [reflexivity|].
  apply (resolveCollisions_only_siblings [lonelyGroup; strayChild] {[ "c" ]} 1 strayChild);
    [reflexivity|].
  intros j m Hj Hkey. destruct j as [|[|j]]; cbn in Hj; [|reflexivity|discriminate].
  injection Hj as <-. discriminate Hkey.
Defined.

(** *** undo and redo *)

Lemma entryAt_Some h i e :
  entryAt h i = Some e -> 0 <= i < Z.of_nat (length h) /\ h !! Z.to_nat i = Some e.
Proof.
  unfold entryAt. destruct (Z.ltb_spec i 0) as [Hneg|Hpos]; [discriminate|]. intros Hl.
  split; [|exact Hl]. apply lookup_lt_Some in Hl. lia.
Qed.

Lemma entryAt_lookup h i e : 0 <= i -> h !! Z.to_nat i = Some e -> entryAt h i = Some e.
Proof.
  intros Hi Hl. unfold entryAt. destruct (Z.ltb_spec i 0) as [Hneg|Hpos]; [lia|exact Hl].
Qed.

Lemma entryAt_in_range h i :
  0 <= i < Z.of_nat (length h) -> exists e, entryAt h i = Some e.
Proof.
  intros Hi. destruct (h !! Z.to_nat i) as [e|] eqn:E.
  - exists e. now apply entryAt_lookup.
  - apply lookup_ge_None in E. lia.
Qed.

(** X14: [undo] and [redo] never change the history, and right after
    [pushHistory], [redo] does nothing, in every state; in a state whose
    index holds the snapshot [e], [undo] then [redo] (with a snapshot before
    the index) and [redo] then [undo] (with a snapshot after it) both lead
    to the content [e] at the same index, so they give the state back
    exactly when its content is [e]. *)
Theorem undo_redo_round_trip (s : AppState) :
  history (undo s) = history s
  /\ history (redo s) = history s
  /\ redo (pushHistory s) = pushHistory s
  /\ setContent s (content s) = s
  /\ (forall e, entryAt (history s) (historyIndex s) = Some e ->
        (1 <= historyIndex s -> redo (undo s) = setContent s e)
        /\ (historyIndex s + 1 < Z.of_nat (length (history s)) ->
            undo (redo s) = setContent s e)).
Proof.
  split; [apply undo_history|]. split; [apply redo_history|]. split.
  { unfold redo.
    change (historyIndex (pushHistory s))
      with (Z.of_nat (length (history (pushHistory s))) - 1).
    now rewrite Z.geb_leb, Z.leb_refl. }
  split; [now destruct s|].
  intros e He. destruct (entryAt_Some _ _ _ He) as [Hr Hl]. split.
  - intros H1. unfold undo. destruct (Z.leb_spec (historyIndex s) 0); [lia|].
    destruct (entryAt_in_range (history s) (historyIndex s - 1)) as [e0 He0]; [lia|].
    rewrite He0. unfold redo. cbn [history historyIndex].
    destruct (Z.geb_spec (historyIndex s - 1) (Z.of_nat (length (history s)) - 1)); [lia|].
    replace (historyIndex s - 1 + 1) with (historyIndex s) by lia.
    rewrite He. reflexivity.
  - intros H1. unfold redo.
    destruct (Z.geb_spec (historyIndex s) (Z.of_nat (length (history s)) - 1)); [lia|].
    destruct (entryAt_in_range (history s) (historyIndex s + 1)) as [e1 He1]; [lia|].
    rewrite He1. unfold undo. cbn [history historyIndex].
    destruct (Z.leb_spec (historyIndex s + 1) 0); [lia|].
    replace (historyIndex s + 1 - 1) with (historyIndex s) by lia.
    rewrite He. reflexivity.
Qed.

Lemma undo_redo_round_trip_witness :
  historyIndex initialState = -1
  /\ redo (pushHistory initialState) = pushHistory initialState
  /\ history (undo initialState) = history initialState
  /\ entryAt (history (pushHistory (pushHistory initialState)))
       (historyIndex (pushHistory (pushHistory initialState)))
     = Some (mkEntry [] [] "MyModule")
  /\ redo (undo (pushHistory (pushHistory initialState)))
     = setContent (pushHistory (pushHistory initialState)) (mkEntry [] [] "MyModule").
Proof.
  split; [reflexivity|]. split.
  { exact (proj1 (proj2 (proj2 (undo_redo_round_trip initialState)))). }
  split; [exact (proj1 (undo_redo_round_trip initialState))|].
  split; [reflexivity|].
  refine (proj1 (proj2 (proj2 (proj2 (proj2
            (undo_redo_round_trip (pushHistory (pushHistory initialState))))))
            (mkEntry [] [] "MyModule") eq_refl) _).
  vm_compute. discriminate.
Defined.

Lemma pushHistory_shape s :
  pushHistory s
  = mkState (nodes s) (edges s) (moduleName s)
      (capped (slice0 (history s) (historyIndex s + 1) ++ [content s]))
      (Z.of_nat (length (capped (slice0 (history s) (historyIndex s + 1) ++ [content s])))
       - 1).
Proof. reflexivity. Qed.

Lemma capped_snoc_last l x : last (capped (l ++ [x])) = Some x.
Proof. apply last_capped. Qed.

Lemma capped_snoc_length l x : (1 <= length (capped (l ++ [x])))%nat.
Proof.
  unfold capped. destruct (Nat.ltb_spec HISTORY_CAP (length (l ++ [x]))) as [H|H].
  - destruct (l ++ [x]) as [|y r]; cbn [length tail] in *; unfold HISTORY_CAP in H; lia.
  - rewrite length_app. cbn. lia.
Qed.

Lemma slice0_all {A} (l : list A) : slice0 l (Z.of_nat (length l) - 1 + 1) = l.
Proof.
  unfold slice0. destruct (Z.ltb_spec (Z.of_nat (length l) - 1 + 1) 0); [lia|].
  rewrite Z.min_l by lia. replace (Z.to_nat (Z.of_nat (length l) - 1 + 1)) with (length l)
    by lia.
  apply firstn_all.
Qed.

(** The entry before the last one, after a second snapshot. *)
Lemma capped_snoc_before_last l a x :
  last l = Some a ->
  capped (l ++ [x]) !! (length (capped (l ++ [x])) - 2)%nat = Some a
  /\ (2 <= length (capped (l ++ [x])))%nat.
Proof.
  intros Hl. unfold capped.
  destruct (Nat.ltb_spec HISTORY_CAP (length (l ++ [x]))) as [H|H].
  - destruct l as [|y [|z l]]; [discriminate|cbn in H; unfold HISTORY_CAP in H; lia|].
    assert (last (z :: l) = Some a) as Hl' by exact Hl.
    rewrite last_lookup in Hl'.
    change (tail ((y :: z :: l) ++ [x])) with ((z :: l) ++ [x]).
    rewrite length_app. cbn [length] in *. split; [|lia].
    rewrite lookup_app_l by (cbn [length]; lia).
    replace (S (length l) + 1 - 2)%nat with (pred (S (length l))) by lia.
    exact Hl'.
  - destruct l as [|y l]; [discriminate|].
    rewrite last_lookup in Hl. rewrite length_app. cbn [length] in *. split; [|lia].
    rewrite lookup_app_l by (cbn [length]; lia).
    replace (S (length l) + 1 - 2)%nat with (pred (S (length l))) by lia.
    exact Hl.
Qed.

(** X15: [undo] goes back to the snapshot before the latest one: after two
    edits, each preceded by [pushHistory], it restores the canvas as it was
    before the first edit, and [redo] then gives the canvas as it was before
    the second one; after one edit on an empty history it does nothing. *)
Theorem undo_after_edits
    (s : AppState) (nb nc : list Node) (eb ec : list Edge) (mb mc : string) :
  content (run s [PushHistory; SetContent nb eb mb; PushHistory; SetContent nc ec mc; Undo])
  = content s
  /\ content (run s [PushHistory; SetContent nb eb mb; PushHistory; SetContent nc ec mc;
                     Undo; Redo])
     = mkEntry nb eb mb
  /\ (historyIndex s = -1 ->
      run s [PushHistory; SetContent nb eb mb; Undo]
      = run s [PushHistory; SetContent nb eb mb]).
Proof.
  set (h1 := capped (slice0 (history s) (historyIndex s + 1) ++ [content s])).
  assert (last h1 = Some (content s)) as Hl1 by apply capped_snoc_last.
  set (h2 := capped (h1 ++ [mkEntry nb eb mb])).
  destruct (capped_snoc_before_last h1 (content s) (mkEntry nb eb mb) Hl1) as [Hb Hlen].
  fold h2 in Hb, Hlen.
  set (s2 := mkState nb eb mb h1 (Z.of_nat (length h1) - 1)).
  set (s4 := mkState nc ec mc h2 (Z.of_nat (length h2) - 1)).
  assert (run s [PushHistory; SetContent nb eb mb] = s2) as E2 by reflexivity.
  assert (run s2 [PushHistory; SetContent nc ec mc] = s4) as E4.
  { cbn [run fold_left step]. rewrite pushHistory_shape. unfold s2.
    cbn [nodes edges moduleName history historyIndex content].
    rewrite slice0_all. reflexivity. }
  assert (undo s4
          = mkState (nodes s) (edges s) (moduleName s) h2 (Z.of_nat (length h2) - 2))
    as Hu.
  { unfold undo, s4. cbn [history historyIndex].
    destruct (Z.leb_spec (Z.of_nat (length h2) - 1) 0); [lia|].
    rewrite (entryAt_lookup h2 (Z.of_nat (length h2) - 1 - 1) (content s)); [|lia|].
    - cbn [content entry_nodes entry_edges entry_moduleName]. f_equal. lia.
    - replace (Z.to_nat (Z.of_nat (length h2) - 1 - 1)) with (length h2 - 2)%nat by lia.
      exact Hb. }
  split; [|split].
  - change [PushHistory; SetContent nb eb mb; PushHistory; SetContent nc ec mc; Undo]
      with ([PushHistory; SetContent nb eb mb]
            ++ [PushHistory; SetContent nc ec mc] ++ [Undo]).
    unfold run in *. rewrite !List.fold_left_app, E2, E4. cbn [fold_left step].
    rewrite Hu. reflexivity.
  - change [PushHistory; SetContent nb eb mb; PushHistory; SetContent nc ec mc; Undo; Redo]
      with ([PushHistory; SetContent nb eb mb]
            ++ [PushHistory; SetContent nc ec mc] ++ [Undo; Redo]).
    unfold run in *. rewrite !List.fold_left_app, E2, E4. cbn [fold_left step].
    rewrite Hu. unfold redo. cbn [history historyIndex].
    destruct (Z.geb_spec (Z.of_nat (length h2) - 2) (Z.of_nat (length h2) - 1)); [lia|].
    assert (last h2 = Some (mkEntry nb eb mb)) as Hl2 by apply capped_snoc_last.
    rewrite last_lookup in Hl2.
    rewrite (entryAt_lookup h2 (Z.of_nat (length h2) - 2 + 1) (mkEntry nb eb mb));
      [reflexivity|lia|].
    replace (Z.to_nat (Z.of_nat (length h2) - 2 + 1)) with (pred (length h2)) by lia.
    exact Hl2.
  - intros Hidx.
    change [PushHistory; SetContent nb eb mb; Undo]
      with ([PushHistory; SetContent nb eb mb] ++ [Undo]).
    unfold run in *. rewrite List.fold_left_app, E2. cbn [fold_left step].
    assert (h1 = [content s]) as Hh1.
    { unfold h1. rewrite Hidx. unfold slice0.
      change (-1 + 1 <? 0) with false. cbn iota.
      replace (Z.to_nat (Z.min (-1 + 1) (Z.of_nat (length (history s))))) with 0%nat
        by lia.
      reflexivity. }
    unfold undo, s2. rewrite Hh1. reflexivity.
Qed.

(** *** deleteDeclNode *)

(** X16: [deleteDeclNode] removes the nodes with the given id and the edges
    that start or end there, and nothing else: the children of a deleted
    node stay, pointing at the id that is gone; the selection never points
    at the deleted id; the canvas as it was is the last history entry. *)
Theorem deleteDeclNode_removes (nodeId : string) (u : UiState) :
  (forall n, In n (nodes (app (deleteDeclNode nodeId u)))
             <-> In n (nodes (app u)) /\ id n <> nodeId)
  /\ (forall e, In e (edges (app (deleteDeclNode nodeId u)))
                <-> In e (edges (app u)) /\ source e <> nodeId /\ target e <> nodeId)
  /\ (forall n, In n (nodes (app u)) -> parentId n = Some nodeId -> id n <> nodeId ->
                In n (nodes (app (deleteDeclNode nodeId u))))
  /\ selectedNodeId (deleteDeclNode nodeId u) <> Some nodeId
  /\ (selectedNodeId u <> Some nodeId ->
      selectedNodeId (deleteDeclNode nodeId u) = selectedNodeId u)
  /\ last (history (app (deleteDeclNode nodeId u))) = Some (content (app u))
  /\ moduleName (app (deleteDeclNode nodeId u)) = moduleName (app u).
Proof.
  assert (forall n, In n (nodes (app (deleteDeclNode nodeId u)))
                    <-> In n (nodes (app u)) /\ id n <> nodeId) as Hn.
  { intros n. unfold deleteDeclNode. cbn [app nodes setCanvas pushHistory].
    rewrite List.filter_In, negb_true_iff, String.eqb_neq. reflexivity. }
  split; [exact Hn|]. split; [|split; [|split; [|split; [|split]]]].
  - intros e. unfold deleteDeclNode. cbn [app edges setCanvas pushHistory].
    rewrite List.filter_In, andb_true_iff, !negb_true_iff, !String.eqb_neq. reflexivity.
  - intros n Hin _ Hid. apply Hn. tauto.
  - unfold deleteDeclNode. cbn [selectedNodeId].
    destruct (selectedNodeId u) as [sel|]; [|discriminate].
    destruct (String.eqb_spec sel nodeId); [discriminate|congruence].
  - intros Hsel. unfold deleteDeclNode. cbn [selectedNodeId].
    destruct (selectedNodeId u) as [sel|]; [|reflexivity].
    destruct (String.eqb_spec sel nodeId); [congruence|reflexivity].
  - unfold deleteDeclNode. cbn [app setCanvas history]. apply last_capped.
  - reflexivity.
Qed.

(** *** clearCanvas *)

Lemma undoUi_app u : app (undoUi u) = undo (app u).
Proof. reflexivity. Qed.

Lemma redoUi_app u : app (redoUi u) = redo (app u).
Proof. reflexivity. Qed.

Lemma take_last (h : list HistoryEntry) (i : nat) e :
  h !! i = Some e -> last (take (S i) h) = Some e.
Proof.
  intros H. rewrite last_lookup, length_take.
  pose proof (lookup_lt_Some _ _ _ H) as Hlt.
  replace (Init.Nat.pred (S i `min` length h)) with i by lia.
  rewrite lookup_take_lt by lia. exact H.
Qed.

(** X17: [clearCanvas] empties the canvas, drops the selection and resets
    the panel width to 500; the generated module is then the empty envelope.
    The cleared canvas is the last history entry, which [undo] steps over:
    on a history without an earlier snapshot neither [undo] nor [redo]
    changes anything; otherwise [undo] shows the snapshot at the earlier
    index and a following [redo] brings the cleared canvas back. *)
Theorem clearCanvas_recovery (u : UiState) :
  nodes (app (clearCanvas u)) = []
  /\ edges (app (clearCanvas u)) = []
  /\ selectedNodeId (clearCanvas u) = None
  /\ panelWidth (clearCanvas u) = 500
  /\ getQuintCode (clearCanvas u)
     = Some ("module " +:+ Reference.moduleId (moduleName (app u)) +:+ " {" +:+ nl +:+ "}")
  /\ last (history (app (clearCanvas u))) = Some (content (app u))
  /\ (historyIndex (app u) = -1 ->
      undoUi (clearCanvas u) = clearCanvas u /\ redoUi (clearCanvas u) = clearCanvas u)
  /\ (forall e, entryAt (history (app u)) (historyIndex (app u)) = Some e ->
        content (app (undoUi (clearCanvas u))) = e
        /\ content (app (redoUi (undoUi (clearCanvas u)))) = content (app u)).
Proof.
  split; [reflexivity|]. split; [reflexivity|]. split; [reflexivity|].
  split; [reflexivity|]. split; [reflexivity|].
  split; [unfold clearCanvas; cbn [app setCanvas history]; apply last_capped|].
  set (a := app u).
  set (h := capped (slice0 (history a) (historyIndex a + 1) ++ [content a])).
  assert (app (clearCanvas u)
          = mkState [] [] (moduleName a) h (Z.of_nat (length h) - 1)) as Happ
    by reflexivity.
  split.
  - intros Hidx.
    assert (h = [content a]) as Hh.
    { unfold h. rewrite Hidx. unfold slice0.
      change (-1 + 1 <? 0) with false. cbn iota.
      replace (Z.to_nat (Z.min (-1 + 1) (Z.of_nat (length (history a))))) with 0%nat
        by lia.
      reflexivity. }
    assert (undo (app (clearCanvas u)) = app (clearCanvas u)) as Eu
      by (rewrite Happ, Hh; reflexivity).
    assert (redo (app (clearCanvas u)) = app (clearCanvas u)) as Er
      by (rewrite Happ, Hh; reflexivity).
    unfold undoUi, redoUi. rewrite Eu, Er. split; reflexivity.
  - intros e He. destruct (entryAt_Some _ _ _ He) as [Hr Hl]. fold a in Hr, Hl.
    assert (last (slice0 (history a) (historyIndex a + 1)) = Some e) as Hlast.
    { rewrite slice0_take by lia.
      replace (Z.to_nat (historyIndex a + 1)) with (S (Z.to_nat (historyIndex a))) by lia.
      now apply take_last. }
    destruct (capped_snoc_before_last _ e (content a) Hlast) as [Hb Hlen].
    fold h in Hb, Hlen.
    assert (undo (app (clearCanvas u))
            = mkState (entry_nodes e) (entry_edges e) (entry_moduleName e) h
                (Z.of_nat (length h) - 2)) as Hu.
    { rewrite Happ. unfold undo. cbn [history historyIndex].
      destruct (Z.leb_spec (Z.of_nat (length h) - 1) 0); [lia|].
      rewrite (entryAt_lookup h (Z.of_nat (length h) - 1 - 1) e); [f_equal; lia|lia|].
      replace (Z.to_nat (Z.of_nat (length h) - 1 - 1)) with (length h - 2)%nat by lia.
      exact Hb. }
    rewrite redoUi_app, !undoUi_app, Hu. split; [now destruct e|].
    unfold redo. cbn [history historyIndex].
    destruct (Z.geb_spec (Z.of_nat (length h) - 2) (Z.of_nat (length h) - 1)); [lia|].
    assert (last h = Some (content a)) as Hl2 by apply last_capped.
    rewrite last_lookup in Hl2.
    rewrite (entryAt_lookup h (Z.of_nat (length h) - 2 + 1) (content a));
      [reflexivity|lia|].
    replace (Z.to_nat (Z.of_nat (length h) - 2 + 1)) with (pred (length h)) by lia.
    exact Hl2.
Qed.

(** *** addNodeToGroup and addDeclNode *)

Lemma lowerEdge_max a c :
  lowerEdge a c = Z.max a (y (position c) + heightOr 80 c + COLLISION_PAD).
Proof.
  unfold lowerEdge.
  destruct (Z.gtb_spec (y (position c) + heightOr 80 c + COLLISION_PAD) a); lia.
Qed.

Lemma lowest_bound children a :
  a <= fold_left lowerEdge children a
  /\ Forall (fun c => y (position c) + heightOr 80 c + COLLISION_PAD
                      <= fold_left lowerEdge children a) children.
Proof.
  revert a. induction children as [|c l IH]; intros a; cbn [fold_left].
  - split; [lia|constructor].
  - destruct (IH (lowerEdge a c)) as [H1 H2]. rewrite lowerEdge_max in *.
    split; [lia|]. constructor; [lia|exact H2].
Qed.

Lemma roleConfig_nodeType r :
  String.eqb (cfg_nodeType (default stepConfig (roleConfig r))) "role-group" = false.
Proof.
  unfold roleConfig.
  repeat match goal with |- context [if ?b then _ else _] => destruct b end;
    reflexivity.
Qed.

Lemma hasParent_iff groupId n : hasParent groupId n = true <-> parentId n = Some groupId.
Proof.
  unfold hasParent. destruct (parentId n) as [p|]; [|split; discriminate].
  rewrite String.eqb_eq. split; congruence.
Qed.

(** X18: the node [addNodeToGroup] creates is a declaration node under the
    given group, at x = 15, at y = 35 at least, and not above the bottom
    edge of any node that is already in the group with the collision padding
    added to it ([child.y + height + 10], as the loop computes it); it is
    appended, selected, and the groups are sized again, so that a group with
    this id covers it. *)
Theorem addNodeToGroup_below (newId groupId : string) (u : UiState) :
  nodes (app (addNodeToGroup newId groupId u))
  = resizeGroups (nodes (app u) ++ [groupChild newId groupId (nodes (app u))])
  /\ selectedNodeId (addNodeToGroup newId groupId u) = Some newId
  /\ last (history (app (addNodeToGroup newId groupId u))) = Some (content (app u))
  /\ id (groupChild newId groupId (nodes (app u))) = newId
  /\ parentId (groupChild newId groupId (nodes (app u))) = Some groupId
  /\ isGroup (groupChild newId groupId (nodes (app u))) = false
  /\ x (position (groupChild newId groupId (nodes (app u)))) = 15
  /\ 35 <= y (position (groupChild newId groupId (nodes (app u))))
  /\ (forall c, In c (nodes (app u)) -> parentId c = Some groupId ->
        y (position c) + heightOr 80 c + 10
        <= y (position (groupChild newId groupId (nodes (app u)))))
  /\ (forall g, In g (nodes (app u)) -> isGroup g = true -> id g = groupId ->
        groupId <> "" ->
        exists g', In g' (nodes (app (addNodeToGroup newId groupId u)))
                   /\ id g' = groupId
                   /\ exists w h, oldWidth g' = Some w /\ oldHeight g' = Some h
                                  /\ 15 + 220 + 15 <= w
                                  /\ y (position (groupChild newId groupId (nodes (app u))))
                                     + 80 + 15 + 40 <= h).
Proof.
  set (ns := nodes (app u)). set (new := groupChild newId groupId ns).
  assert (y (position new) = lowestBottom (List.filter (hasParent groupId) ns)) as Hy
    by reflexivity.
  destruct (lowest_bound (List.filter (hasParent groupId) ns) (GROUP_HEADER + 5))
    as [Hlow Hall].
  fold (lowestBottom (List.filter (hasParent groupId) ns)) in Hlow, Hall.
  rewrite <- Hy in Hlow, Hall.
  split; [reflexivity|]. split; [reflexivity|].
  split; [unfold addNodeToGroup; cbn [app setCanvas history]; apply last_capped|].
  split; [reflexivity|]. split; [reflexivity|].
  split; [unfold new, groupChild, isGroup; cbn [type]; apply roleConfig_nodeType|].
  split; [reflexivity|].
  split; [unfold GROUP_HEADER in Hlow; lia|].
  split.
  - intros c Hc Hp.
    assert (y (position c) + heightOr 80 c + COLLISION_PAD <= y (position new)) as Hle.
    { rewrite List.Forall_forall in Hall. apply Hall.
      apply List.filter_In. split; [exact Hc|]. now apply hasParent_iff. }
    unfold COLLISION_PAD in Hle. exact Hle.
  - intros g Hg Hgrp Hid Hne.
    assert (nodes (app (addNodeToGroup newId groupId u)) = resizeGroups (ns ++ [new]))
      as -> by reflexivity.
    rewrite resizeGroups_fitted.
    exists (fitted (ns ++ [new]) g).
    split; [apply List.in_map, List.in_or_app; now left|].
    destruct (fitted_sameButStyle (ns ++ [new]) g) as (Hid' & _).
    split; [congruence|].
    assert (In new (directChildren g (ns ++ [new]))) as Hin.
    { unfold directChildren. rewrite Hid.
      replace (truthy groupId) with true
        by (symmetry; unfold truthy; apply negb_true_iff; now apply String.eqb_neq).
      apply List.filter_In. split; [apply List.in_or_app; right; now left|].
      unfold childOf. cbn [parentId new groupChild]. apply String.eqb_refl. }
    unfold fitted. rewrite Hgrp.
    destruct (directChildren g (ns ++ [new])) as [|c cs] eqn:E; [destruct Hin|].
    exists (fitWidth (c :: cs)), (fitHeight (c :: cs)).
    split; [reflexivity|]. split; [reflexivity|].
    destruct (maxOf0_spec (map rightExtent (c :: cs))) as (_ & Hr & _).
    destruct (maxOf0_spec (map bottomExtent (c :: cs))) as (_ & Hb & _).
    rewrite List.Forall_forall in Hr, Hb.
    specialize (Hr (rightExtent new) (List.in_map _ _ _ Hin)).
    specialize (Hb (bottomExtent new) (List.in_map _ _ _ Hin)).
    cbn beta in Hr, Hb.
    unfold fitWidth, fitHeight, GROUP_PADDING, GROUP_BUTTON_AREA.
    change (rightExtent new) with (15 + 220) in Hr.
    change (bottomExtent new) with (y (position new) + 80) in Hb.
    lia.
Qed.

Lemma declarations_app l1 l2 :
  declarations (l1 ++ l2)
  = match declarations l1, declarations l2 with
    | Some a, Some b => Some (a ++ b)
    | _, _ => None
    end.
Proof.
  induction l1 as [|n l IH].
  - change ([] ++ l2) with l2. cbn [declarations]. now destruct (declarations l2).
  - change ((n :: l) ++ l2) with (n :: (l ++ l2)). cbn [declarations].
    destruct (isGroup n); [exact IH|]. rewrite IH.
    destruct (asDeclaration n), (declarations l), (declarations l2); reflexivity.
Qed.

Lemma KIND_TO_NODE_TYPE_not_group k :
  String.eqb (KIND_TO_NODE_TYPE k) "role-group" = false.
Proof. now destruct k. Qed.

(** X19: [addDeclNode] appends one node, which is never taken for a group:
    the declarations handed to the code generator are the earlier ones
    followed by the new one, which has the given id and kind and a name
    that is not empty; the node is selected and the canvas as it was is the
    last history entry. *)
Theorem addDeclNode_appends (newId : string) (kind : Spec.DeclKind) (x y : Z) (u : UiState) :
  declarations (nodes (app (addDeclNode newId kind x y u)))
  = option_map (fun ds => ds ++ [SpecMore.createDeclaration newId kind (declDefaults kind)])
      (declarations (nodes (app u)))
  /\ length (nodes (app (addDeclNode newId kind x y u))) = S (length (nodes (app u)))
  /\ Spec.id (SpecMore.createDeclaration newId kind (declDefaults kind)) = newId
  /\ Spec.kind (SpecMore.createDeclaration newId kind (declDefaults kind)) = kind
  /\ truthy (Spec.name (SpecMore.createDeclaration newId kind (declDefaults kind))) = true
  /\ selectedNodeId (addDeclNode newId kind x y u) = Some newId
  /\ last (history (app (addDeclNode newId kind x y u))) = Some (content (app u)).
Proof.
  split; [|split; [|split; [|split; [|split; [|split]]]]].
  - unfold addDeclNode. cbn [app setCanvas nodes pushHistory].
    rewrite declarations_app. cbn [declarations isGroup type].
    rewrite KIND_TO_NODE_TYPE_not_group. cbn [asDeclaration data].
    now destruct (declarations (nodes (app u))).
  - unfold addDeclNode. cbn [app setCanvas nodes pushHistory].
    rewrite length_app. cbn [length]. lia.
  - now destruct kind.
  - now destruct kind.
  - now destruct kind.
  - reflexivity.
  - unfold addDeclNode. cbn [app setCanvas history]. apply last_capped.
Qed.

(** *** The invariant of a simulation run *)

Lemma invNames_declarations ns ds :
  declarations ns = Some ds ->
  invNames ns = map Spec.name (List.filter namesInvariant ds).
Proof.
  unfold invNames. revert ds. induction ns as [|n r IH]; intros ds Hd.
  - injection Hd as <-. reflexivity.
  - cbn [declarations] in Hd. cbn [List.filter]. unfold namedInvariant at 1.
    destruct (isGroup n) eqn:Hg; cbn [negb andb]; [now apply IH|].
    unfold asDeclaration in Hd. destruct (data n) as [d|r0 l0] eqn:Ed; [|discriminate].
    destruct (declarations r) as [ds'|]; [|discriminate]. injection Hd as <-.
    cbn [dataRole dataName List.filter]. unfold namesInvariant at 1.
    assert (match option_map roleName (Spec.role d) with
            | Some r0 => String.eqb r0 "invariant"
            | None => false
            end = Spec.role_is Spec.RInvariant (Spec.role d)) as ->
      by (now destruct (Spec.role d) as [[]|]).
    destruct (Spec.role_is Spec.RInvariant (Spec.role d) && truthy (Spec.name d));
      cbn [map]; rewrite ?Ed; cbn [dataName default]; now rewrite (IH ds' eq_refl).
Qed.

Lemma invariants_namesInvariant ds :
  Spec.invariants ds = List.filter valueOrFunction (List.filter namesInvariant ds).
Proof.
  unfold Spec.invariants. induction ds as [|d ds IH]; [reflexivity|].
  cbn [List.filter]. unfold namesInvariant at 1, valueOrFunction.
  destruct (Spec.role_is Spec.RInvariant (Spec.role d) && truthy (Spec.name d));
    cbn [andb List.filter]; [|exact IH].
  fold (valueOrFunction d). destruct (valueOrFunction d); now rewrite IH.
Qed.

(** X20: the invariant [handleRun] passes to the simulator lists the names
    of all named declarations of invariant role, while the synthesized run
    expects those among them that are values or functions: when every such
    declaration is a value or a function the two lists are the same, so the
    simulator checks what [invariantTest] expects, and with no such
    declaration the invariant passed is [true]. *)
Theorem runInvariant_matches (ns : list Node) (ds : list Spec.VisualDeclaration) :
  declarations ns = Some ds ->
  invNames ns = map Spec.name (List.filter namesInvariant ds)
  /\ Spec.invariants ds = List.filter valueOrFunction (List.filter namesInvariant ds)
  /\ (Forall (fun d => namesInvariant d = true -> valueOrFunction d = true) ds ->
      map Spec.name (Spec.invariants ds) = invNames ns
      /\ (Spec.invariants ds <> [] ->
          runInvariant ns = join " and " (map Spec.name (Spec.invariants ds)))
      /\ (Spec.invariants ds = [] -> runInvariant ns = "true")).
Proof.
  intros Hd. pose proof (invNames_declarations ns ds Hd) as Hn.
  pose proof (invariants_namesInvariant ds) as Hi.
  split; [exact Hn|]. split; [exact Hi|].
  intros Hall.
  assert (Spec.invariants ds = List.filter namesInvariant ds) as Heq.
  { rewrite Hi. clear -Hall. induction Hall as [|d ds Hd _ IH]; [reflexivity|].
    cbn [List.filter]. destruct (namesInvariant d) eqn:E; [|exact IH].
    cbn [List.filter]. rewrite (Hd eq_refl). now f_equal. }
  assert (map Spec.name (Spec.invariants ds) = invNames ns) as Hm by now rewrite Hn, Heq.
  split; [exact Hm|]. unfold runInvariant. rewrite <- Hm. split.
  - intros Hne. destruct (Spec.invariants ds); [congruence|reflexivity].
  - now intros ->.
Qed.

Lemma runInvariant_matches_witness :
  declarations [safeNode] = Some [Reference.safe]
  /\ invNames [safeNode] = ["safe"].
Proof.
  split; [reflexivity|].
  exact (proj1 (runInvariant_matches [safeNode] [Reference.safe] eq_refl)).
Defined.

(** *** No collision, no change *)

Lemma fold_pairStep_still m ii rest st :
  Forall (fun jj => pairStep m ii st jj = st) rest ->
  fold_left (pairStep m ii) rest st = st.
Proof.
  induction 1 as [|jj rest Hjj _ IH]; [reflexivity|].
  cbn [fold_left]. now rewrite Hjj.
Qed.

Lemma pairLoops_still m idxs st :
  List.NoDup idxs ->
  (forall ii jj, In ii idxs -> In jj idxs -> ii <> jj -> pairStep m ii st jj = st) ->
  pairLoops m idxs st = st.
Proof.
  induction idxs as [|ii rest IH]; intros Hnd Hall; [reflexivity|].
  inversion Hnd as [|? ? Hnot Hnd']; subst. cbn [pairLoops].
  rewrite fold_pairStep_still.
  - apply IH; [exact Hnd'|]. intros a b Ha Hb. apply Hall; now right.
  - apply List.Forall_forall. intros jj Hjj.
    apply Hall; [now left|now right|]. intros ->. contradiction.
Qed.

Lemma groupStep_still m (nodes : list Node) b dc key idxs :
  siblingsApart nodes -> List.NoDup idxs ->
  (forall i, In i idxs -> exists n, nodes !! i = Some n /\ parentKey n = key) ->
  exists b', groupStep m (mkLoop nodes b dc) (key, idxs) = mkLoop nodes b' dc.
Proof.
  intros Hapart Hnd Hidx. unfold groupStep. cbn [snd].
  destruct (length idxs <? 2)%nat; [now exists b|].
  exists true. cbn [passes]. unfold onePass. cbn [out didChange].
  rewrite pairLoops_still; [reflexivity|exact Hnd|].
  intros ii jj Hii Hjj Hne.
  destruct (Hidx ii Hii) as (a & Ha & Hka). destruct (Hidx jj Hjj) as (c & Hc & Hkc).
  apply (pairStep_skip m (mkLoop nodes true dc) ii jj a c Ha Hc). right.
  apply (Hapart ii jj a c Hne Ha Hc). congruence.
Qed.

Lemma groups_still m (nodes : list Node) groups b dc :
  siblingsApart nodes ->
  Forall (fun g => List.NoDup (snd g)
                   /\ forall i, In i (snd g) ->
                        exists n, nodes !! i = Some n /\ parentKey n = fst g) groups ->
  exists b', fold_left (groupStep m) groups (mkLoop nodes b dc) = mkLoop nodes b' dc.
Proof.
  intros Hapart Hall. revert b.
  induction Hall as [|[key idxs] groups [Hnd Hidx] _ IH]; intros b; [now exists b|].
  cbn [fold_left]. cbn [fst snd] in *.
  destruct (groupStep_still m nodes b dc key idxs Hapart Hnd Hidx) as [b1 ->].
  apply IH.
Qed.

(** X21: when no two siblings overlap, padding included, nothing is moved:
    the array is returned as it is, whichever nodes are marked as moving. *)
Theorem resolveCollisions_apart (nodes : list Node) (movedIds : gset string) :
  siblingsApart nodes -> resolveCollisions nodes movedIds = nodes.
Proof.
  intros Hapart. unfold resolveCollisions.
  destruct (bool_decide (size movedIds = 0%nat)); [reflexivity|].
  destruct (groups_still movedIds nodes (byParent nodes) true false Hapart) as [b' ->];
    [|reflexivity].
  apply List.Forall_forall. intros [key idxs] Hin. cbn [fst snd].
  pose proof (byParent_entry nodes key idxs Hin) as ->.
  split; [apply indicesOf_NoDup|]. intros i Hi. now apply indicesOf_In.
Qed.

Lemma resolveCollisions_apart_witness :
  siblingsApart [leftCard; rightCard]
  /\ resolveCollisions [leftCard; rightCard] {[ "l"; "r" ]} = [leftCard; rightCard].
Proof.
  assert (siblingsApart [leftCard; rightCard]) as H.
  { intros i j a b Hne Ha Hb _.
    destruct i as [|[|i]], j as [|[|j]]; cbn in Ha, Hb; try discriminate; try congruence;
      injection Ha as <-; injection Hb as <-; left; vm_compute; discriminate. }
  split; [exact H|]. exact (resolveCollisions_apart _ _ H).
Defined.

End StoreMoreProps.
